(** * Git-Seer: the remote listing client, the analyzers, the tree builder
      and the command-line entry point, embedded from [seer.py] and
      [seer-tui.py].

    Text is modelled as [string], read as the UTF-8 encoding of a Python
    [str]: the separators the program splits on ('/' and '.') are ASCII, so
    splitting on bytes and on code points agree, and the byte-wise order of
    UTF-8 text is the code-point order Python's [sorted] uses. *)

From Stdlib Require Import Ascii String ZArith Lia.
From stdpp Require Import gmap strings list sorting pretty.
From Equations Require Import Equations.


(** ** Python built-ins on [str] *)

Module Py.

(** [s.split(sep)] for a one-character separator: never empty, one more part
    than there are separators. *)
Fixpoint split (sep : ascii) (s : string) : list string :=
  match s with
  | "" => [""]
  | String c s' =>
      if Ascii.eqb c sep then "" :: split sep s'
      else match split sep s' with
           | [] => [String c ""]
           | h :: t => String c h :: t
           end
  end.

(** The text before and after the last [sep] of [s], if there is one. *)
Fixpoint rcut (sep : ascii) (s : string) : option (string * string) :=
  match s with
  | "" => None
  | String c s' =>
      match rcut sep s' with
      | Some (h, t) => Some (String c h, t)
      | None => if Ascii.eqb c sep then Some ("", s') else None
      end
  end.

(** [s.rpartition(sep)]: (head, sep, tail) at the last separator, and
    ("", "", s) when there is none. *)
Definition rpartition (sep : ascii) (s : string) : string * string * string :=
  match rcut sep s with
  | Some (h, t) => (h, String sep "", t)
  | None => ("", "", s)
  end.

(** [s.rsplit(sep, 1)]: at most one split, at the last separator. *)
Definition rsplit1 (sep : ascii) (s : string) : list string :=
  match rcut sep s with
  | Some (h, t) => [h; t]
  | None => [s]
  end.

(** [s.startswith(p)] *)
Fixpoint startswith (p s : string) : bool :=
  match p, s with
  | "", _ => true
  | String a p', String b s' => Ascii.eqb a b && startswith p' s'
  | String _ _, "" => false
  end.

(** [s.endswith(p)] *)
Fixpoint endswith (p s : string) : bool :=
  String.eqb p s ||
  match s with
  | "" => false
  | String _ s' => endswith p s'
  end.

(** [k in s] for two strings: [k] occurs somewhere in [s]. *)
Fixpoint contains (k s : string) : bool :=
  startswith k s ||
  match s with
  | "" => false
  | String _ s' => contains k s'
  end.

(** [l[-1]] on a list of strings that is never empty here. *)
Definition last_part (l : list string) : string := List.last l "".

(** [l[0]], likewise. *)
Definition first_part (l : list string) : string := List.hd "" l.

(** [sep.join(l)] *)
Definition join (sep : string) (l : list string) : string := String.concat sep l.

(** [sorted(l, key=key)], and with [reverse=True] when [le] is the reversed
    order: a stable sort, an element going before the first one it is not
    greater than. *)
Section Sorted.
Context {A K : Type} (key : A → K) (le : K → K → bool).

Fixpoint insert_by (x : A) (l : list A) : list A :=
  match l with
  | [] => [x]
  | y :: l' => if le (key x) (key y) then x :: l else y :: insert_by x l'
  end.

Definition sorted (l : list A) : list A := foldr insert_by [] l.
End Sorted.

(** A [dict] whose order of insertion is observable: [d.get(k)],
    and [d[k] = v], which keeps the place of a key already there. *)
Section Dict.
Context {V : Type}.

Fixpoint dict_get (d : list (string * V)) (k : string) : option V :=
  match d with
  | [] => None
  | (k', v) :: d' => if String.eqb k' k then Some v else dict_get d' k
  end.

Fixpoint dict_set (d : list (string * V)) (k : string) (v : V) : list (string * V) :=
  match d with
  | [] => [(k, v)]
  | (k', v') :: d' =>
      if String.eqb k' k then (k, v) :: d' else (k', v') :: dict_set d' k v
  end.
End Dict.

End Py.

(** ** The listing *)

(** One element of the listing GitHub returns: [item['path']] and
    [item['type']], the latter "blob" for a file and "tree" for a directory. *)
Record item := Item { path : string; type : string }.

Definition is_blob (it : item) : bool := String.eqb (type it) "blob".
Definition is_tree (it : item) : bool := String.eqb (type it) "tree".

(** ** The analyzers of [seer.py] *)

Module Seer.

Definition src_layout : string := "📦 'src' layout detected".
Definition monorepo : string := " monorepo structure ('packages/' or 'apps/')".
Definition django : string := "🐍 Django project ('manage.py' found)".
Definition dockerized : string :=
  "🐳 Dockerized environment ('Dockerfile' or 'docker-compose.yml')".
Definition ci_cd : string := "🔄 CI/CD configured (GitHub Actions)".

(** [structures.append(s)] under [if c]. *)
Definition append_if (c : bool) (s : string) (structures : list string) : list string :=
  if c then structures ++ [s] else structures.

Definition analyze_project_structure (tree : list item) : list string :=
  let structures := [] in
  let paths : gset string := list_to_set (path <$> filter (λ it, is_blob it) tree) in
  let tops : gset string :=
    list_to_set ((λ p, Py.first_part (Py.split "/" p)) <$> elements paths) in
  let structures :=
    append_if (existsb (Py.startswith "src/") (elements paths)) src_layout structures in
  let structures :=
    append_if (bool_decide ("packages" ∈ tops) || bool_decide ("apps" ∈ tops))
      monorepo structures in
  let structures :=
    append_if (existsb (Py.endswith "manage.py") (elements paths)) django structures in
  let structures :=
    append_if (existsb (λ p, Py.endswith "docker-compose.yml" p || Py.endswith "Dockerfile" p)
                 (elements paths)) dockerized structures in
  let dirs : gset string := list_to_set (path <$> filter (λ it, is_tree it) tree) in
  let structures :=
    append_if (bool_decide (".github/workflows" ∈ dirs)) ci_cd structures in
  structures.

Definition dep_files : list string :=
  ["pyproject.toml"; "requirements.txt"; "package.json"; "go.mod"; "pom.xml";
   "build.gradle"; "Cargo.toml"; "Gemfile"].

(** The last segment of a path, [path.split('/')[-1]]. *)
Definition basename (p : string) : string := Py.last_part (Py.split "/" p).

Definition analyze_dependencies (tree : list item) : list string :=
  let found_files : gset string :=
    list_to_set ((λ it, basename (path it)) <$>
      filter (λ it, bool_decide (basename (path it) ∈ dep_files)) tree) in
  Py.sorted id String.leb (elements found_files).

Definition lang_map : list (string * string) :=
  [(".py", "Python"); (".js", "JavaScript"); (".ts", "TypeScript");
   (".tsx", "TypeScript"); (".go", "Go"); (".rs", "Rust"); (".java", "Java");
   (".rb", "Ruby"); (".c", "C"); (".cpp", "C++"); (".md", "Markdown");
   (".html", "HTML"); (".css", "CSS"); (".yml", "YAML"); (".json", "JSON")].

(** One turn of the loop of [analyze_languages]. *)
Definition count_language (counts : list (string * nat)) (it : item) : list (string * nat) :=
  if is_blob it then
    let parts := Py.rsplit1 "." (path it) in
    if bool_decide (1 < List.length parts) then
      let ext := "." +:+ Py.last_part parts in
      match Py.dict_get lang_map ext with
      | Some lang => Py.dict_set counts lang (default 0 (Py.dict_get counts lang) + 1)
      | None => counts
      end
    else counts
  else counts.

Definition analyze_languages (tree : list item) : list (string * nat) :=
  foldl count_language [] tree.



(** [str.lower], on which only the risk detector depends, is left open: the
    development holds for every lowering function. *)
Definition analyze_code_smells (lower : string → string) (tree : list item) : list string :=
  let smell_keywords := [".env"; "secret"; "credentials"; "id_rsa"; ".pem"] in
  path <$> filter (λ it, existsb (λ keyword, Py.contains keyword (lower (path it))) smell_keywords) tree.

(** *** The network *)

(** What [response.json()] returns: a JSON object, of which the program
    reads the listing under the key 'tree' and, by [get], scalar fields, kept
    here as the text an f-string prints for them. *)
Record data := Data { data_tree : option (list item); data_fields : list (string * string) }.

(** The outcome of [requests.get(url)]: the call itself raises (a timeout,
    a DNS failure, a refused connection: a [RequestException] that is not an
    [HTTPError]), or a response arrives with a status code and a body, which
    is a JSON object or text on which [response.json()] raises
    [JSONDecodeError], itself a [RequestException]. *)
Inductive response :=
| Unreachable
| Reply (status_code : Z) (body : option data).

Inductive exn := HTTPError | RequestException.

(** What the console shows, in order. *)
Inductive output :=
| Status (s : string)
| StatusUpdate (s : string)
| Print (s : string)
| PrintPanel (text title border_style : string)
| PrintTable (rows : list (string * string)).

(** The requests sent so far, by URL, and the console. *)
Record world := World { requests : list string; console : list output }.

Definition M (A : Type) : Type := world → A * world.
#[global] Instance M_ret : MRet M := λ A a w, (a, w).
#[global] Instance M_bind : MBind M := λ A B k m w, let '(a, w') := m w in k a w'.

Definition emit (o : output) : M unit :=
  λ w, (tt, World (requests w) (console w ++ [o])).

(** [response.raise_for_status()] raises [HTTPError] on 4xx and 5xx. *)
Definition raise_for_status (status_code : Z) : bool :=
  (400 <=? status_code)%Z && (status_code <? 600)%Z.

(** The measure under which [get_repo_tree] and [get_tree] call themselves:
    only from "main", and then on "master". *)
Definition fallbacks_left (branch : string) : nat :=
  if decide (branch = "main") then 1 else 0.

Section Network.
(** The remote side: the answer to a request may depend on the requests
    that came before it. *)
Context (server : list string → string → response).

Definition requests_get (url : string) : M response :=
  λ w, (server (requests w) url, World (requests w ++ [url]) (console w)).

(** The three statements every [try] block of the program starts with:
    [requests.get], [raise_for_status], [response.json()]. *)
Definition get_json (api_url : string) : M (exn + data) :=
  response ← requests_get api_url;
  match response with
  | Unreachable => mret (inl RequestException)
  | Reply status_code body =>
      if raise_for_status status_code then mret (inl HTTPError)
      else match body with
           | None => mret (inl RequestException)
           | Some data => mret (inr data)
           end
  end.

Definition get_repo_metadata (repo_owner repo_name : string) : M (option data) :=
  let api_url := "https://api.github.com/repos/" +:+ repo_owner +:+ "/" +:+ repo_name in
  r ← get_json api_url;
  match r with
  | inr data => mret (Some data)
  | inl _ => mret None
  end.

Definition tree_url (repo_owner repo_name branch : string) : string :=
  "https://api.github.com/repos/" +:+ repo_owner +:+ "/" +:+ repo_name
    +:+ "/git/trees/" +:+ branch +:+ "?recursive=1".

Equations get_repo_tree (repo_owner repo_name branch : string) (w : world) :
  option (list item) * world by wf (fallbacks_left branch) lt :=
get_repo_tree repo_owner repo_name branch w :=
  (r ← get_json (tree_url repo_owner repo_name branch);
  match r return M (option (list item)) with
  | inr data =>
      match data_tree data with
      | Some tree => mret (Some tree)
      | None => mret None
      end
  | inl HTTPError =>
      match decide (branch = "main") with
      | left _ => λ w', get_repo_tree repo_owner repo_name "master" w'
      | right _ => mret None
      end
  | inl RequestException => mret None
  end) w.

(** [bool(x)] for what the two fetches return: [None], an empty [dict]
    and an empty [list] are false. *)
Definition bool_dict (d : option data) : bool :=
  match d with
  | Some (Data None []) => false
  | Some _ => true
  | None => false
  end.

Definition bool_list (l : option (list item)) : bool :=
  match l with
  | Some (_ :: _) => true
  | _ => false
  end.

(** [metadata.get(key, dflt)], as it prints. *)
Definition get (metadata : data) (key dflt : string) : string :=
  default dflt (Py.dict_get (data_fields metadata) key).

Definition nl : string := String "010" "".

(** [table.add_row(a, b)] *)
Definition add_row (table : list (string * string)) (a b : string) : list (string * string) :=
  table ++ [(a, b)].

Context (lower : string → string).

(** The part of [main] after both fetches succeeded. *)
Definition report (repo : string) (metadata : data) (file_tree : list item) : M Z :=
  emit (StatusUpdate "Analyzing codebase from afar...");;
  let structures := analyze_project_structure file_tree in
  let dependencies := analyze_dependencies file_tree in
  let smells := analyze_code_smells lower file_tree in
  let languages := analyze_languages file_tree in
  emit (Print "");;
  let title := "Oracle Report for [link=https://github.com/" +:+ repo +:+ "]" +:+ repo +:+ "[/link]" in
  let stats := "⭐ " +:+ get metadata "stargazers_count" "0" +:+ " │ 🍴 "
               +:+ get metadata "forks_count" "0" +:+ " │ 🐞 "
               +:+ get metadata "open_issues_count" "0" +:+ " issues" in
  emit (PrintPanel ("[bold cyan]" +:+ stats +:+ "[/]" +:+ nl +:+ "[i]"
                      +:+ get metadata "description" "No description." +:+ "[/i]")
          title "green");;
  let table : list (string * string) := [] in
  let table : list (string * string) :=
    match languages with
    | [] => table
    | _ =>
        let sorted_langs := take 5 (Py.sorted snd (λ a b, Nat.leb b a) languages) in
        let lang_str :=
          Py.join ", " ((λ '(lang, count), lang +:+ " (" +:+ pretty count +:+ " files)")
                          <$> sorted_langs) in
        add_row table "🗣️ Top Languages" lang_str
    end in
  let table : list (string * string) :=
    match structures with
    | [] => table
    | _ => add_row table "🏛️ Architecture" (Py.join nl ((λ s, "- " +:+ s) <$> structures))
    end in
  let table : list (string * string) :=
    match dependencies with
    | [] => table
    | _ => add_row table "📦 Dependencies"
             ("Found: [cyan]" +:+ Py.join ", " dependencies +:+ "[/cyan]")
    end in
  let table : list (string * string) :=
    match smells with
    | [] => add_row table "🚩 Red Flags" "[green]✅ No obvious secret files found.[/green]"
    | _ => add_row table "🚩 Red Flags"
             ("[yellow]Potential secrets or config found in: "
                +:+ Py.join ", " smells +:+ "[/yellow]")
    end in
  emit (PrintTable table);;
  mret 0%Z.

(** [main], returning the exit code of the process: the code of the
    [typer.Exit] it raises, and 0 when it returns. *)
Definition main (repo : string) : M Z :=
  match Py.split "/" repo with
  | [owner; name] =>
      emit (Status ("[bold yellow]🔮 Peering into the digital soul of " +:+ repo +:+ "...[/]"));;
      emit (StatusUpdate "Fetching repository metadata...");;
      metadata ← get_repo_metadata owner name;
      emit (StatusUpdate "Fetching file structure (this is the magic part)...");;
      file_tree ← get_repo_tree owner name "main";
      if negb (bool_dict metadata) || negb (bool_list file_tree) then
        emit (Print ("❌ [bold red]Fatal Error:[/bold red] Could not retrieve data for [cyan]"
                       +:+ repo +:+ "[/cyan]."));;
        emit (Print "   - Check if the repository is public and the name is correct.");;
        emit (Print "   - The default branch might not be 'main' or 'master'.");;
        mret 1%Z
      else
        report repo (default (Data None []) metadata) (default [] file_tree)
  | _ =>
      emit (Print "❌ [bold red]Error:[/bold red] Invalid repository format. Please use 'owner/repo'.");;
      mret 1%Z
  end.

End Network.

End Seer.


(** ** The interactive explorer of [seer-tui.py] *)

Module SeerTui.

(** A node of Textual's [Tree] widget. Nodes are objects the program holds
    references to (in [nodes], in their parent's children), so the widget is
    a store of nodes, a reference being an index in it; the root is node 0. *)
Record TreeNode := Node {
  label : string;
  data : option string;
  allow_expand : bool;
  is_expanded : bool;
  children : list nat }.

Definition root : nat := 0.

(** [Tree(label)]: a root and nothing else. *)
Definition Tree (lbl : string) : list TreeNode := [Node lbl None true false []].

(** [tree.clear()]: the root is made anew with its label, data and expanded
    state, every other node is gone. *)
Definition clear (tree : list TreeNode) : list TreeNode :=
  match tree with
  | r :: _ => [Node (label r) (data r) true (is_expanded r) []]
  | [] => []
  end.

Definition set_label (n : nat) (lbl : string) (tree : list TreeNode) : list TreeNode :=
  alter (λ nd, Node lbl (data nd) (allow_expand nd) (is_expanded nd) (children nd)) n tree.

Definition expand (n : nat) (tree : list TreeNode) : list TreeNode :=
  alter (λ nd, Node (label nd) (data nd) (allow_expand nd) true (children nd)) n tree.

(** [parent.add(label, data=d, allow_expand=a)]: a new node, appended to the
    children of [parent], and returned. *)
Definition add (parent : nat) (lbl d : string) (a : bool) (tree : list TreeNode) :
    nat * list TreeNode :=
  let new_node := List.length tree in
  (new_node,
   alter (λ nd, Node (label nd) (data nd) (allow_expand nd) (is_expanded nd)
                  (children nd ++ [new_node])) parent tree
   ++ [Node lbl (Some d) a false []]).

(** [parent.add_leaf(label, data=d)] *)
Definition add_leaf (parent : nat) (lbl d : string) (tree : list TreeNode) :
    nat * list TreeNode :=
  add parent lbl d false tree.

Definition file_icon : string := "📄".
Definition dir_icon : string := "📁".

(** One turn of the loop of [populate_tree], on the dictionary [nodes] and
    the widget. *)
Definition place (s : gmap string nat * list TreeNode) (it : item) :
    gmap string nat * list TreeNode :=
  let '(nodes, tree) := s in
  let path := path it in
  let '(parent_path, _, current_name) := Py.rpartition "/" path in
  let parent_node := default root (nodes !! parent_path) in
  let icon := if is_blob it then file_icon else dir_icon in
  let label := icon +:+ " " +:+ current_name in
  if is_blob it then
    (nodes, (add_leaf parent_node label path tree).2)
  else
    let '(new_node, tree) := add parent_node label path true tree in
    (<[path := new_node]> nodes, tree).

Record SeerApp := App {
  repo_full_name : string;
  file_tree_data : option (list item);
  status_line : string;
  status_display : bool;
  tree_display : bool;
  tree_focus : bool;
  dir_tree : list TreeNode }.

(** The application once [compose] and [on_mount] have run. *)
Definition mounted (repo_full_name : string) : SeerApp :=
  App repo_full_name None ("🔮 Fetching data for " +:+ repo_full_name +:+ "...")
      true false false (Tree ("📂 " +:+ repo_full_name)).

Definition populate_tree (self : SeerApp) : SeerApp :=
  match file_tree_data self with
  | None | Some [] =>
      App (repo_full_name self) (file_tree_data self) "[red]No file data to display.[/red]"
          (status_display self) (tree_display self) (tree_focus self) (dir_tree self)
  | Some file_tree_data =>
      let tree := clear (dir_tree self) in
      let tree := set_label root ("📂 " +:+ repo_full_name self) tree in
      let nodes : gmap string nat := {[ "" := root ]} in
      let sorted_tree := Py.sorted path String.leb file_tree_data in
      let '(nodes, tree) := foldl place (nodes, tree) sorted_tree in
      let tree := expand root tree in
      App (repo_full_name self) (Some file_tree_data) (status_line self)
          false true true tree
  end.

(** The tree the explorer shows for a listing: [load_repo_data] stores the
    listing in the mounted application and calls [populate_tree]. *)
Definition buildTree (repo : string) (entries : list item) : list TreeNode :=
  let self := mounted repo in
  dir_tree (populate_tree
    (App (repo_full_name self) (Some entries) (status_line self)
         (status_display self) (tree_display self) (tree_focus self) (dir_tree self))).

Section Fetch.
Context (server : list string → string → Seer.response).

(** [get_tree], the closure of [load_repo_data]; its request differs from
    that of [seer.py] by a timeout, which is one more way for
    [requests.get] to raise. *)
Equations get_tree (owner name branch : string) (w : Seer.world) :
  option (list item) * Seer.world by wf (Seer.fallbacks_left branch) lt :=
get_tree owner name branch w :=
  (r ← Seer.get_json server (Seer.tree_url owner name branch);
  match r return Seer.M (option (list item)) with
  | inr data => mret (Seer.data_tree data)
  | inl Seer.HTTPError =>
      match decide (branch = "main") with
      | left _ => λ w', get_tree owner name "master" w'
      | right _ => mret None
      end
  | inl Seer.RequestException => mret None
  end) w.

Definition load_repo_data (self : SeerApp) : Seer.M SeerApp :=
  match Py.split "/" (repo_full_name self) with
  | [owner; name] =>
      tree_data ← get_tree owner name "main";
      if Seer.bool_list tree_data then
        mret (populate_tree
                (App (repo_full_name self) tree_data (status_line self)
                     (status_display self) (tree_display self) (tree_focus self)
                     (dir_tree self)))
      else
        mret (App (repo_full_name self) (file_tree_data self)
                  ("[red]Could not load repository: " +:+ repo_full_name self +:+ "[/red]")
                  (status_display self) (tree_display self) (tree_focus self)
                  (dir_tree self))
  | _ =>
      mret (App (repo_full_name self) (file_tree_data self) "[red]Invalid repo format.[/red]"
                (status_display self) (tree_display self) (tree_focus self) (dir_tree self))
  end.
End Fetch.

End SeerTui.

(** ** Vocabulary of the specification *)

(** [s.count(c)], the number of separators in a repository argument. *)
Fixpoint count_char (c : ascii) (s : string) : nat :=
  match s with
  | "" => 0
  | String a s' => (if Ascii.eqb a c then 1 else 0) + count_char c s'
  end.

(** The world after one more request. *)
Definition sent (url : string) (w : Seer.world) : Seer.world :=
  Seer.World (Seer.requests w ++ [url]) (Seer.console w).

(** An HTTP status failure, as opposed to a failure of the transport. *)
Definition http_failure (r : Seer.response) : Prop :=
  ∃ status_code body, r = Seer.Reply status_code body ∧ (400 ≤ status_code < 600)%Z.

(** The listing a single, final attempt yields from the answer it gets. *)
Definition listing_of (r : Seer.response) : option (list item) :=
  match r with
  | Seer.Reply status_code (Some d) =>
      if Seer.raise_for_status status_code then None else Seer.data_tree d
  | _ => None
  end.

(** The contract of the remote listing client, for a fetch function
    [fetch owner name branch] run against [server]. *)
Definition fetchListing_contract
    (server : list string → string → Seer.response)
    (fetch : string → string → string → Seer.world → option (list item) * Seer.world) : Prop :=
  ∀ owner name branch w,
    let url := Seer.tree_url owner name branch in
    let first := server (Seer.requests w) url in
    let w1 := sent url w in
    let fallback := Seer.tree_url owner name "master" in
    (* the requested branch is attempted first, and nothing is printed *)
    (∃ rest, Seer.requests (fetch owner name branch w).2 = Seer.requests w ++ url :: rest
             ∧ Seer.console (fetch owner name branch w).2 = Seer.console w) ∧
    (* a status failure on "main": exactly one more attempt, on "master" *)
    (http_failure first → branch = "main" →
       fetch owner name branch w
       = (listing_of (server (Seer.requests w1) fallback), sent fallback w1)) ∧
    (* a status failure on any other branch: no fallback *)
    (http_failure first → branch ≠ "main" → fetch owner name branch w = (None, w1)) ∧
    (* a failure of the transport: no fallback *)
    (first = Seer.Unreachable → fetch owner name branch w = (None, w1)).

(** [str.lower] on ASCII text. *)
Definition ascii_lower_char (c : ascii) : ascii :=
  let n := nat_of_ascii c in
  if bool_decide (65 ≤ n ≤ 90) then ascii_of_nat (n + 32) else c.

Fixpoint ascii_lower (s : string) : string :=
  match s with
  | "" => ""
  | String c s' => String (ascii_lower_char c) (ascii_lower s')
  end.

(** What the two fetches of [main] return when the requests logged so far
    are [log]; the console plays no part in it. *)
Definition metadata_fetched (server : list string → string → Seer.response)
    (owner name : string) (log : list string) : option Seer.data :=
  (Seer.get_repo_metadata server owner name (Seer.World log [])).1.

Definition listing_fetched (server : list string → string → Seer.response)
    (owner name : string) (log : list string) : option (list item) :=
  (Seer.get_repo_tree server owner name "main" (Seer.World log [])).1.

Definition metadata_url (owner name : string) : string :=
  "https://api.github.com/repos/" +:+ owner +:+ "/" +:+ name.

(** The report is what the console shows last: a panel, then the table. *)
Definition report_printed (w : Seer.world) : Prop :=
  ∃ before text title style rows,
    Seer.console w = before ++ [Seer.PrintPanel text title style; Seer.PrintTable rows].

(** Lexical order on text, strict: code point by code point, a proper
    prefix before its extensions. *)
Definition lexical_lt (a b : string) : Prop := String.compare a b = Lt.

(** How often a finding occurs in a list of findings. *)
Definition occurrences (x : string) (l : list string) : nat :=
  List.length (filter (λ y, y = x) l).

(** The language of a file name: what the table gives for "." followed by
    the text after the last dot of the name, and none when the name has no
    dot. A name whose only dot comes first has the rest as its extension. *)
Definition name_language (name : string) : option string :=
  match Py.rcut "." name with
  | Some (_, extension) => Py.dict_get Seer.lang_map ("." +:+ extension)
  | None => None
  end.

(** The entry is a file whose name has the language [lang]. *)
Definition counted_as (lang : string) (it : item) : Prop :=
  type it = "blob" ∧ name_language (Seer.basename (path it)) = Some lang.

#[global] Instance counted_as_dec lang it : Decision (counted_as lang it).
Proof. unfold counted_as. apply _. Defined.

(** *** Trees *)

(** The icon the explorer gives an entry. *)
Definition icon_of (it : item) : string :=
  if is_blob it then SeerTui.file_icon else SeerTui.dir_icon.

(** The node shows the segment [name]: its label is an icon, a space and
    the name. *)
Definition shows (nd : SeerTui.TreeNode) (name : string) : Prop :=
  SeerTui.label nd = SeerTui.file_icon +:+ " " +:+ name
  ∨ SeerTui.label nd = SeerTui.dir_icon +:+ " " +:+ name.

(** [reach tree names n]: walking down from the root, taking at each step
    the child that shows the next of [names], ends at node [n]. *)
Inductive reach (tree : list SeerTui.TreeNode) : list string → nat → Prop :=
| reach_root : reach tree [] SeerTui.root
| reach_child names p pn c cn name :
    reach tree names p →
    tree !! p = Some pn →
    c ∈ SeerTui.children pn →
    tree !! c = Some cn →
    shows cn name →
    reach tree (names ++ [name]) c.

(** Node [n] is a child of node [p]. *)
Definition child_of (tree : list SeerTui.TreeNode) (p n : nat) : Prop :=
  ∃ pn, tree !! p = Some pn ∧ n ∈ SeerTui.children pn.

(** A leaf: a node made by [add_leaf], which cannot be expanded, and which
    has no children. *)
Definition is_leaf (tree : list SeerTui.TreeNode) (n : nat) : Prop :=
  ∃ nd, tree !! n = Some nd ∧ SeerTui.allow_expand nd = false ∧ SeerTui.children nd = [].

(** Node [n] stands for the entry [it]: it is not the root, carries the path
    of the entry as its data, shows its last segment under the icon of its
    type, and can be expanded unless the entry is a file. *)
Definition node_of (tree : list SeerTui.TreeNode) (n : nat) (it : item) : Prop :=
  ∃ nd, tree !! n = Some nd
        ∧ n ≠ SeerTui.root
        ∧ SeerTui.data nd = Some (path it)
        ∧ SeerTui.label nd = icon_of it +:+ " " +:+ (Py.rpartition "/" (path it)).2
        ∧ SeerTui.allow_expand nd = negb (is_blob it).

(** The listing names the directory of each of its entries: an entry whose
    path has a '/' comes with an entry that is not a file for the path before
    the last '/'. *)
Definition parents_listed (entries : list item) : Prop :=
  ∀ it parent name,
    it ∈ entries → Py.rcut "/" (path it) = Some (parent, name) →
    ∃ d, d ∈ entries ∧ path d = parent ∧ is_blob d = false.

(** Two nodes that differ at most in being expanded and in their children. *)
Definition same_node (nd' nd : SeerTui.TreeNode) : Prop :=
  SeerTui.label nd' = SeerTui.label nd
  ∧ SeerTui.data nd' = SeerTui.data nd
  ∧ SeerTui.allow_expand nd' = SeerTui.allow_expand nd.

(** Every node of [tree] is a node of [tree'], with the children it had and
    maybe more. *)
Definition carries (tree' tree : list SeerTui.TreeNode) : Prop :=
  ∀ n nd, tree !! n = Some nd →
    ∃ nd', tree' !! n = Some nd' ∧ same_node nd' nd
           ∧ SeerTui.children nd ⊆ SeerTui.children nd'.

(** What holds besides when the listing has no empty path, no path twice,
    and lists the directory of every entry: the walks from the root are the
    paths of the entries placed. *)
Record walk_inv (placed : list item) (nodes : gmap string nat)
    (tree : list SeerTui.TreeNode) : Prop := {
  walk_root_key : nodes !! "" = Some SeerTui.root;
  walk_nodes : ∀ p n, nodes !! p = Some n → p ≠ "" → reach tree (Py.split "/" p) n;
  walk_dirs : ∀ d, d ∈ placed → is_blob d = false → is_Some (nodes !! path d);
  walk_reach : ∀ names n, reach tree names n → n ≠ SeerTui.root →
                 ∃ it, it ∈ placed ∧ names = Py.split "/" (path it) ∧ node_of tree n it;
  walk_entries : ∀ it, it ∈ placed →
                   ∃ n, reach tree (Py.split "/" (path it)) n ∧ node_of tree n it;
  walk_inj : ∀ n n' nd nd', tree !! n = Some nd → tree !! n' = Some nd' →
               n ≠ SeerTui.root → n' ≠ SeerTui.root →
               SeerTui.data nd = SeerTui.data nd' → n = n' }.

(** What holds of the dictionary [nodes] and of the widget once the loop of
    [populate_tree] has placed the entries [placed], whatever the listing. *)
Record placed_inv (placed : list item) (nodes : gmap string nat)
    (tree : list SeerTui.TreeNode) : Prop := {
  inv_length : List.length tree = S (List.length placed);
  inv_root : ∃ r, tree !! SeerTui.root = Some r ∧ SeerTui.data r = None
                  ∧ SeerTui.allow_expand r = true;
  inv_nodes : ∀ p n, nodes !! p = Some n →
                ∃ nd, tree !! n = Some nd ∧ SeerTui.allow_expand nd = true;
  inv_children : ∀ n nd c, tree !! n = Some nd → c ∈ SeerTui.children nd →
                   0 < c < List.length tree;
  inv_entries : ∀ it, it ∈ placed → ∃ n, node_of tree n it ∧ ∃ p, child_of tree p n;
  inv_owner : ∀ n nd, tree !! n = Some nd → n ≠ SeerTui.root →
                ∃ it, it ∈ placed ∧ SeerTui.data nd = Some (path it);
  inv_leaf : ∀ n nd, tree !! n = Some nd → SeerTui.allow_expand nd = false →
               SeerTui.children nd = [] }.

(** *** Sample servers and listings *)

(** The listing of the specification: a directory and a file in it. *)
Definition listing_a_b : list item := [Item "a" "tree"; Item "a/b.txt" "blob"].

(** A listing that omits the directory of its only file. *)
Definition listing_orphan : list item := [Item "x/y.txt" "blob"].


(** A server on which "main" is not found and "master" is. *)
Definition server_master_only : list string → string → Seer.response :=
  λ _ url,
    if String.eqb url (Seer.tree_url "o" "n" "master")
    then Seer.Reply 200 (Some (Seer.Data (Some [Item "a.py" "blob"]) []))
    else Seer.Reply 404 None.

(** A server that answers every request with an object that has no listing. *)
Definition server_no_listing : list string → string → Seer.response :=
  λ _ _, Seer.Reply 200 (Some (Seer.Data None [("message", "ok")])).

(** A server whose repository has metadata and a listing of one file. *)
Definition server_one_file : list string → string → Seer.response :=
  λ _ url,
    if String.eqb url (Seer.tree_url "o" "n" "main")
    then Seer.Reply 200 (Some (Seer.Data (Some [Item "a.py" "blob"]) [("sha", "4b825dc")]))
    else Seer.Reply 200 (Some (Seer.Data None [("stargazers_count", "3")])).

(** A server whose repository has metadata and an empty listing. *)
Definition server_empty_listing : list string → string → Seer.response :=
  λ _ url,
    if String.eqb url (Seer.tree_url "o" "n" "main")
    then Seer.Reply 200 (Some (Seer.Data (Some []) [("sha", "4b825dc")]))
    else Seer.Reply 200 (Some (Seer.Data None [("stargazers_count", "3")])).

(** Both fetches of a run of [main] on [repo], started in [w], retrieved
    something: the argument is well formed, the metadata is an object with
    at least one field and the listing has at least one entry. *)
Definition retrieved (server : list string → string → Seer.response)
    (repo : string) (w : Seer.world) : Prop :=
  let owner := Py.first_part (Py.split "/" repo) in
  let name := Py.last_part (Py.split "/" repo) in
  count_char "/" repo = 1
  ∧ (∃ metadata, metadata_fetched server owner name (Seer.requests w) = Some metadata
                 ∧ metadata ≠ Seer.Data None [])
  ∧ (∃ entry rest,
       listing_fetched server owner name (Seer.requests w ++ [metadata_url owner name])
       = Some (entry :: rest)).

(** *** Vocabulary of the further properties *)

(** The findings of the structure detector, in the order of its rules. *)
Definition all_structures : list string :=
  [Seer.src_layout; Seer.monorepo; Seer.django; Seer.dockerized; Seer.ci_cd].

(** The entry is a file whose name has a language of the table. *)
Definition recognized (it : item) : Prop :=
  type it = "blob" ∧ is_Some (name_language (Seer.basename (path it))).

#[global] Instance recognized_dec it : Decision (recognized it).
Proof. unfold recognized. apply _. Defined.

(** The panel and the table, the two outputs that make the report. *)
Definition is_report_output (o : Seer.output) : Prop :=
  match o with
  | Seer.PrintPanel _ _ _ | Seer.PrintTable _ => True
  | _ => False
  end.

(** The headers of the rows of the report, in the order [main] adds them. *)
Definition report_headers : list string :=
  ["🗣️ Top Languages"; "🏛️ Architecture"; "📦 Dependencies"; "🚩 Red Flags"].

(** Two listings in which the same manifests occur, in other places. *)
Definition listing_deps_1 : list item :=
  [Item "a/pom.xml" "blob"; Item "go.mod" "blob"].
Definition listing_deps_2 : list item :=
  [Item "go.mod" "blob"; Item "b/pom.xml" "blob"; Item "pom.xml" "blob"].

(** A successful answer: a status that is no failure, and a body that is a
    JSON object. *)
Definition answers (r : Seer.response) (d : Seer.data) : Prop :=
  ∃ status_code, r = Seer.Reply status_code (Some d) ∧ ¬ (400 ≤ status_code < 600)%Z.

(** The shape of a tree: a child comes after its parent and is a node of
    the tree, no node has two parents or is twice the child of one, and every
    node but the root has a parent. *)
Record shape_inv (tree : list SeerTui.TreeNode) : Prop := {
  shape_lt : ∀ p n, child_of tree p n → p < n < List.length tree;
  shape_unique : ∀ p p' n, child_of tree p n → child_of tree p' n → p = p';
  shape_nodup : ∀ n nd, tree !! n = Some nd → NoDup (SeerTui.children nd);
  shape_parent : ∀ n, 0 < n < List.length tree → ∃ p, child_of tree p n }.

(** The application after a first fetch of [listing_a_b]. *)
Definition app_a_b : SeerTui.SeerApp :=
  SeerTui.App "o/n" (Some listing_a_b) "🔮 Fetching data for o/n..." true false false
    (SeerTui.Tree "📂 o/n").

(** [listing_a_b], the other way round. *)
Definition listing_b_a : list item := [Item "a/b.txt" "blob"; Item "a" "tree"].

(** ** Properties of the remote listing client *)

Section NetworkFacts.
Context (server : list string → string → Seer.response).

Lemma raise_for_status_true status_code :
  Seer.raise_for_status status_code = true ↔ (400 ≤ status_code < 600)%Z.
Proof. unfold Seer.raise_for_status. rewrite andb_true_iff. lia. Qed.

(** One attempt: the request is logged and the answer classified. *)
Lemma get_json_run api_url w :
  Seer.get_json server api_url w =
    (match server (Seer.requests w) api_url with
     | Seer.Unreachable => inl Seer.RequestException
     | Seer.Reply status_code body =>
         if Seer.raise_for_status status_code then inl Seer.HTTPError
         else match body with
              | None => inl Seer.RequestException
              | Some d => inr d
              end
     end, sent api_url w).
Proof.
  unfold Seer.get_json, Seer.requests_get, mbind, Seer.M_bind, mret, Seer.M_ret, sent.
  destruct (server _ _) as [|st [d|]]; try destruct (Seer.raise_for_status st); reflexivity.
Qed.

(** An attempt that is not made on "main" is final. *)
Lemma get_repo_tree_final owner name branch w :
  branch ≠ "main" →
  Seer.get_repo_tree server owner name branch w
  = (listing_of (server (Seer.requests w) (Seer.tree_url owner name branch)),
     sent (Seer.tree_url owner name branch) w).
Proof.
  intros Hb. rewrite Seer.get_repo_tree_equation_1.
  unfold mbind, Seer.M_bind. rewrite get_json_run. unfold listing_of.
  destruct (server _ _) as [|st [d|]]; try destruct (Seer.raise_for_status st);
    try destruct (decide _); try destruct (Seer.data_tree d); done.
Qed.

Lemma get_tree_final owner name branch w :
  branch ≠ "main" →
  SeerTui.get_tree server owner name branch w
  = (listing_of (server (Seer.requests w) (Seer.tree_url owner name branch)),
     sent (Seer.tree_url owner name branch) w).
Proof.
  intros Hb. rewrite SeerTui.get_tree_equation_1.
  unfold mbind, Seer.M_bind. rewrite get_json_run. unfold listing_of.
  destruct (server _ _) as [|st [d|]]; try destruct (Seer.raise_for_status st);
    try destruct (decide _); done.
Qed.

(** The attempt on "main": final unless the status is a failure. *)
Lemma get_repo_tree_main owner name w :
  let url := Seer.tree_url owner name "main" in
  Seer.get_repo_tree server owner name "main" w
  = match server (Seer.requests w) url with
    | Seer.Reply status_code body =>
        if Seer.raise_for_status status_code then
          Seer.get_repo_tree server owner name "master" (sent url w)
        else (listing_of (Seer.Reply status_code body), sent url w)
    | Seer.Unreachable => (None, sent url w)
    end.
Proof.
  intros url. rewrite Seer.get_repo_tree_equation_1.
  unfold mbind, Seer.M_bind. rewrite get_json_run. fold url. unfold listing_of.
  destruct (server _ _) as [|st [d|]]; try destruct (Seer.raise_for_status st);
    try destruct (decide _); try destruct (Seer.data_tree d); done.
Qed.

Lemma get_tree_main owner name w :
  let url := Seer.tree_url owner name "main" in
  SeerTui.get_tree server owner name "main" w
  = match server (Seer.requests w) url with
    | Seer.Reply status_code body =>
        if Seer.raise_for_status status_code then
          SeerTui.get_tree server owner name "master" (sent url w)
        else (listing_of (Seer.Reply status_code body), sent url w)
    | Seer.Unreachable => (None, sent url w)
    end.
Proof.
  intros url. rewrite SeerTui.get_tree_equation_1.
  unfold mbind, Seer.M_bind. rewrite get_json_run. fold url. unfold listing_of.
  destruct (server _ _) as [|st [d|]]; try destruct (Seer.raise_for_status st);
    try destruct (decide _); done.
Qed.

(** Both fetch functions behave alike. *)
Lemma get_tree_get_repo_tree owner name branch w :
  SeerTui.get_tree server owner name branch w
  = Seer.get_repo_tree server owner name branch w.
Proof.
  destruct (decide (branch = "main")) as [->|Hb].
  - rewrite get_tree_main, get_repo_tree_main.
    destruct (server _ _) as [|st body]; [done|].
    destruct (Seer.raise_for_status st); [|done].
    by rewrite get_tree_final, get_repo_tree_final.
  - by rewrite get_tree_final, get_repo_tree_final.
Qed.

Lemma get_repo_tree_contract : fetchListing_contract server (Seer.get_repo_tree server).
Proof.
  intros owner name branch w url first w1 fallback.
  destruct (decide (branch = "main")) as [->|Hb].
  - rewrite get_repo_tree_main. fold url first.
    rewrite get_repo_tree_final by done. fold w1 fallback.
    repeat split.
    + destruct first as [|st body]; [by exists []|].
      destruct (Seer.raise_for_status st); [|by exists []].
      exists [fallback]. simpl. by rewrite <- app_assoc.
    + intros (st & body & -> & Hst) _.
      apply raise_for_status_true in Hst. by rewrite Hst.
    + done.
    + by intros ->.
  - rewrite get_repo_tree_final by done. fold url first w1.
    repeat split.
    + by exists [].
    + done.
    + intros (st & body & -> & Hst) _.
      apply raise_for_status_true in Hst. unfold listing_of.
      rewrite Hst. by destruct body.
    + by intros ->.
Qed.
End NetworkFacts.

(** C3. Both fetch functions attempt the requested branch first; a status
    failure (4xx, 5xx) on "main" is followed by exactly one attempt on
    "master", whose outcome is final; a status failure on another branch, and
    a failure of the transport on any, give [None] with no further request. *)
Theorem C3_branch_fallback (server : list string → string → Seer.response) :
  fetchListing_contract server (Seer.get_repo_tree server)
  ∧ fetchListing_contract server (SeerTui.get_tree server).
Proof.
  split; [apply get_repo_tree_contract|].
  intros owner name branch w. simpl.
  rewrite !get_tree_get_repo_tree.
  apply (get_repo_tree_contract server owner name branch w).
Qed.

Lemma C3_branch_fallback_witness :
  Seer.get_repo_tree server_master_only "o" "n" "main" (Seer.World [] [])
  = (Some [Item "a.py" "blob"],
     Seer.World [Seer.tree_url "o" "n" "main"; Seer.tree_url "o" "n" "master"] []).
Proof.
  destruct (C3_branch_fallback server_master_only) as [H _].
  destruct (H "o" "n" "main" (Seer.World [] [])) as (_ & Hmain & _).
  rewrite Hmain; [reflexivity| |reflexivity].
  exists 404%Z, None. split; [reflexivity|lia].
Defined.

(** When more than the one request for the requested branch was sent, that
    branch was "main" and its answer a status failure. *)
Lemma fallback_only_on_http_failure server owner name branch w :
  Seer.requests (Seer.get_repo_tree server owner name branch w).2
    ≠ Seer.requests w ++ [Seer.tree_url owner name branch] →
  branch = "main" ∧ http_failure (server (Seer.requests w) (Seer.tree_url owner name branch)).
Proof.
  destruct (decide (branch = "main")) as [->|Hb].
  - rewrite get_repo_tree_main.
    destruct (server _ _) as [|st body] eqn:Hs; [done|].
    destruct (Seer.raise_for_status st) eqn:Hst; [|done].
    intros _. split; [done|]. exists st, body. split; [done|].
    by apply raise_for_status_true.
  - by rewrite get_repo_tree_final.
Qed.

(** C10. When the answer for "main" is a success (2xx) whose body has no
    'tree' field, both fetch functions return [None] after that one request;
    and whenever a fetch sends more than its first request, the first answer
    was a status failure on "main". *)
Theorem C10_missing_listing_no_fallback
    (server : list string → string → Seer.response)
    (owner name : string) (w : Seer.world) (status_code : Z) (d : Seer.data) :
  server (Seer.requests w) (Seer.tree_url owner name "main")
    = Seer.Reply status_code (Some d) →
  (200 ≤ status_code < 300)%Z →
  Seer.data_tree d = None →
  Seer.get_repo_tree server owner name "main" w
    = (None, sent (Seer.tree_url owner name "main") w)
  ∧ SeerTui.get_tree server owner name "main" w
    = (None, sent (Seer.tree_url owner name "main") w)
  ∧ (∀ fetch branch w',
       fetch = Seer.get_repo_tree server ∨ fetch = SeerTui.get_tree server →
       Seer.requests (fetch owner name branch w').2
         ≠ Seer.requests w' ++ [Seer.tree_url owner name branch] →
       branch = "main"
       ∧ http_failure (server (Seer.requests w') (Seer.tree_url owner name branch))).
Proof.
  intros Hs Hst Hd.
  assert (Seer.raise_for_status status_code = false) as Hok.
  { unfold Seer.raise_for_status. apply andb_false_iff. lia. }
  rewrite get_tree_get_repo_tree, get_repo_tree_main, Hs, Hok.
  unfold listing_of. rewrite Hok, Hd. split; [done|]. split; [done|].
  intros fetch branch w' Hfetch Hlog.
  destruct Hfetch as [-> | ->]; [|rewrite get_tree_get_repo_tree in Hlog];
    by apply fallback_only_on_http_failure.
Qed.

Lemma C10_missing_listing_no_fallback_witness :
  Seer.get_repo_tree server_no_listing "o" "n" "main" (Seer.World [] [])
    = (None, Seer.World [Seer.tree_url "o" "n" "main"] [])
  ∧ SeerTui.get_tree server_no_listing "o" "n" "main" (Seer.World [] [])
    = (None, Seer.World [Seer.tree_url "o" "n" "main"] []).
Proof.
  destruct (C10_missing_listing_no_fallback server_no_listing "o" "n" (Seer.World [] [])
              200 (Seer.Data None [("message", "ok")])) as (H1 & H2 & _);
    [reflexivity | lia | reflexivity |].
  split; [exact H1 | exact H2].
Defined.

(** ** Properties of the command-line entry point *)

Lemma split_nonempty sep s : Py.split sep s ≠ [].
Proof. destruct s as [|c s]; simpl; [done|]. destruct (Ascii.eqb c sep); [done|]. by destruct (Py.split sep s). Qed.

(** [split] yields one more part than there are separators. *)
Lemma split_length sep s : List.length (Py.split sep s) = S (count_char sep s).
Proof.
  induction s as [|c s IH]; simpl; [done|].
  destruct (Ascii.eqb c sep); simpl; [by rewrite IH|].
  destruct (Py.split sep s); simpl in *; lia.
Qed.

Lemma split_two sep s :
  count_char sep s = 1 ↔ ∃ owner name, Py.split sep s = [owner; name].
Proof.
  pose proof (split_length sep s) as Hlen. split.
  - intros Hc. rewrite Hc in Hlen.
    destruct (Py.split sep s) as [|a [|b [|? ?]]]; simpl in Hlen; try lia. eauto.
  - intros (owner & name & Hs). rewrite Hs in Hlen. simpl in Hlen. lia.
Qed.

(** The fetches do not read the console and do not write to it. *)
Lemma get_repo_metadata_run server owner name w :
  Seer.get_repo_metadata server owner name w
  = (metadata_fetched server owner name (Seer.requests w), sent (metadata_url owner name) w).
Proof.
  unfold metadata_fetched, Seer.get_repo_metadata, mbind, Seer.M_bind.
  rewrite !get_json_run. simpl.
  destruct (server _ _) as [|st [d|]]; try destruct (Seer.raise_for_status st); reflexivity.
Qed.

Lemma get_repo_tree_run server owner name w :
  ∃ rest,
    Seer.get_repo_tree server owner name "main" w
    = (listing_fetched server owner name (Seer.requests w),
       Seer.World (Seer.requests w ++ rest) (Seer.console w)).
Proof.
  unfold listing_fetched. rewrite !get_repo_tree_main. simpl.
  destruct (server _ _) as [|st body].
  - by exists [Seer.tree_url owner name "main"].
  - destruct (Seer.raise_for_status st).
    + rewrite !get_repo_tree_final by done. simpl.
      exists [Seer.tree_url owner name "main"; Seer.tree_url owner name "master"].
      unfold sent. simpl. by rewrite <- app_assoc.
    + by exists [Seer.tree_url owner name "main"].
Qed.

Lemma report_run lower repo metadata file_tree w :
  (Seer.report lower repo metadata file_tree w).1 = 0%Z
  ∧ report_printed (Seer.report lower repo metadata file_tree w).2.
Proof.
  unfold Seer.report, mbind, Seer.M_bind, Seer.emit, mret, Seer.M_ret. simpl.
  split; [done|]. unfold report_printed. simpl.
  exists (Seer.console w ++ [Seer.StatusUpdate "Analyzing codebase from afar..."; Seer.Print ""]).
  do 4 eexists. rewrite <- !app_assoc. simpl. reflexivity.
Qed.

(** [main] on an argument that does not split in two. *)
Lemma main_malformed server lower repo w :
  count_char "/" repo ≠ 1 →
  Seer.main server lower repo w
  = (1%Z, Seer.World (Seer.requests w)
            (Seer.console w ++ [Seer.Print "❌ [bold red]Error:[/bold red] Invalid repository format. Please use 'owner/repo'."])).
Proof.
  intros Hc. unfold Seer.main.
  destruct (Py.split "/" repo) as [|a [|b [|? ?]]] eqn:Hs; try reflexivity.
  exfalso. apply Hc. apply split_two. eauto.
Qed.

(** C9. A repository argument that does not hold exactly one '/' makes
    [main] print one error message and exit with code 1, and the log of
    requests is what it was: no request is sent. *)
Theorem C9_malformed_repo
    (server : list string → string → Seer.response) (lower : string → string)
    (repo : string) (w : Seer.world) :
  count_char "/" repo ≠ 1 →
  ∃ message,
    Seer.main server lower repo w
    = (1%Z, Seer.World (Seer.requests w) (Seer.console w ++ [Seer.Print message])).
Proof.
  intros Hc. eexists. by apply main_malformed.
Qed.

Lemma C9_malformed_repo_witness :
  ∃ message,
    Seer.main server_master_only ascii_lower "notarepo" (Seer.World [] [])
    = (1%Z, Seer.World [] [Seer.Print message]).
Proof.
  apply (C9_malformed_repo server_master_only ascii_lower "notarepo" (Seer.World [] [])).
  vm_compute. lia.
Defined.

Lemma bool_dict_true d :
  Seer.bool_dict d = true ↔ ∃ metadata, d = Some metadata ∧ metadata ≠ Seer.Data None [].
Proof.
  split.
  - destruct d as [[[t|] [|f fs]]|]; simpl; try done; eauto.
  - intros (m & -> & Hm). destruct m as [[t|] [|f fs]]; done.
Qed.

Lemma bool_list_true l :
  Seer.bool_list l = true ↔ ∃ entry rest, l = Some (entry :: rest).
Proof.
  split.
  - destruct l as [[|e r]|]; simpl; try done; eauto.
  - by intros (e & r & ->).
Qed.

(** [main] on a well-formed argument, in terms of what the fetches return. *)
Lemma main_run server lower repo owner name w :
  Py.split "/" repo = [owner; name] →
  let metadata := metadata_fetched server owner name (Seer.requests w) in
  let file_tree :=
    listing_fetched server owner name (Seer.requests w ++ [metadata_url owner name]) in
  if Seer.bool_dict metadata && Seer.bool_list file_tree
  then (Seer.main server lower repo w).1 = 0%Z ∧ report_printed (Seer.main server lower repo w).2
  else (Seer.main server lower repo w).1 = 1%Z.
Proof.
  intros Hs metadata file_tree. unfold Seer.main. rewrite Hs.
  unfold mbind, Seer.M_bind, Seer.emit at 1 2 3. simpl.
  rewrite get_repo_metadata_run. simpl. fold metadata.
  set (w1 := Seer.World _ _).
  destruct (get_repo_tree_run server owner name w1) as [rest Hrun].
  rewrite Hrun. subst w1. cbn [Seer.requests]. fold file_tree.
  destruct (Seer.bool_dict metadata), (Seer.bool_list file_tree);
    cbn [negb orb andb]; try reflexivity.
  apply report_run.
Qed.

(** C8, as the code has it. [main] prints the report and exits with code 0
    when the argument is well formed, the metadata fetch returns an object
    that is not empty and the listing fetch returns a listing that is not
    empty; in every other case (an empty listing among them) it exits with
    code 1. *)
Theorem C8_exit_code
    (server : list string → string → Seer.response) (lower : string → string)
    (repo : string) (w : Seer.world) :
  (retrieved server repo w →
     (Seer.main server lower repo w).1 = 0%Z
     ∧ report_printed (Seer.main server lower repo w).2)
  ∧ (¬ retrieved server repo w → (Seer.main server lower repo w).1 = 1%Z).
Proof.
  unfold retrieved.
  destruct (decide (count_char "/" repo = 1)) as [Hc|Hc].
  - destruct (proj1 (split_two "/" repo) Hc) as (owner & name & Hs).
    pose proof (main_run server lower repo owner name w Hs) as Hrun.
    rewrite Hs.
    change (Py.last_part [owner; name]) with name.
    change (Py.first_part [owner; name]) with owner.
    simpl in Hrun.
    destruct (Seer.bool_dict _) eqn:Hm; simpl in Hrun.
    + destruct (Seer.bool_list _) eqn:Hl; simpl in Hrun.
      * split; [done|]. intros Hn. exfalso. apply Hn.
        by rewrite <- bool_dict_true, <- bool_list_true.
      * split; [|done]. intros (_ & _ & Hl').
        apply bool_list_true in Hl'. congruence.
    + split; [|done]. intros (_ & Hm' & _).
      apply bool_dict_true in Hm'. congruence.
  - split; [by intros [? _]|]. intros _.
    by rewrite main_malformed.
Qed.

Lemma C8_exit_code_witness :
  (Seer.main server_one_file ascii_lower "o/n" (Seer.World [] [])).1 = 0%Z
  ∧ report_printed (Seer.main server_one_file ascii_lower "o/n" (Seer.World [] [])).2.
Proof.
  apply (C8_exit_code server_one_file ascii_lower "o/n" (Seer.World [] [])).
  split; [reflexivity|]. split.
  - eexists. split; [reflexivity|done].
  - by do 2 eexists.
Defined.

(** C8 fails as stated: on a well-formed argument, with metadata returned
    and an empty listing returned, [main] exits with code 1. *)
Lemma C8_empty_listing_exits_1 :
  count_char "/" "o/n" = 1
  ∧ metadata_fetched server_empty_listing "o" "n" []
    = Some (Seer.Data None [("stargazers_count", "3")])
  ∧ listing_fetched server_empty_listing "o" "n" [metadata_url "o" "n"] = Some []
  ∧ (Seer.main server_empty_listing ascii_lower "o/n" (Seer.World [] [])).1 = 1%Z.
Proof. vm_compute. done. Qed.

(** ** Text and order *)

Lemma ascii_compare_N a b : Ascii.compare a b = N.compare (N_of_ascii a) (N_of_ascii b).
Proof. reflexivity. Qed.

Lemma ascii_compare_refl a : Ascii.compare a a = Eq.
Proof. rewrite ascii_compare_N. apply N.compare_refl. Qed.

Lemma ascii_compare_trans c a1 a2 a3 :
  Ascii.compare a1 a2 = c → Ascii.compare a2 a3 = c → Ascii.compare a1 a3 = c.
Proof.
  rewrite !ascii_compare_N. destruct c; intros H1 H2.
  - apply N.compare_eq_iff in H1. apply N.compare_eq_iff in H2.
    apply N.compare_eq_iff. congruence.
  - apply N.compare_lt_iff in H1. apply N.compare_lt_iff in H2.
    apply N.compare_lt_iff. by etrans.
  - apply N.compare_gt_iff in H1. apply N.compare_gt_iff in H2.
    apply N.compare_gt_iff. by etrans.
Qed.

Lemma string_compare_refl s : String.compare s s = Eq.
Proof. induction s as [|c s IH]; simpl; [done|]. by rewrite ascii_compare_refl. Qed.

Lemma string_compare_trans c s1 s2 s3 :
  String.compare s1 s2 = c → String.compare s2 s3 = c → String.compare s1 s3 = c.
Proof.
  revert s2 s3. induction s1 as [|a1 s1 IH]; intros [|a2 s2] [|a3 s3]; simpl;
    try congruence.
  destruct (Ascii.compare a1 a2) eqn:H12, (Ascii.compare a2 a3) eqn:H23;
    try congruence.
  - apply Ascii.compare_eq_iff in H12, H23. subst.
    rewrite ascii_compare_refl. apply IH.
  - apply Ascii.compare_eq_iff in H12. subst. by rewrite H23.
  - apply Ascii.compare_eq_iff in H12. subst. by rewrite H23.
  - apply Ascii.compare_eq_iff in H23. subst. by rewrite H12.
  - by rewrite (ascii_compare_trans Lt a1 a2 a3).
  - apply Ascii.compare_eq_iff in H23. subst. by rewrite H12.
  - by rewrite (ascii_compare_trans Gt a1 a2 a3).
Qed.

Lemma leb_compare a b : String.leb a b = true ↔ String.compare a b ≠ Gt.
Proof. unfold String.leb. destruct (String.compare a b); naive_solver. Qed.

Lemma leb_refl a : String.leb a a = true.
Proof. apply leb_compare. by rewrite string_compare_refl. Qed.

Lemma leb_trans a b c : String.leb a b = true → String.leb b c = true → String.leb a c = true.
Proof.
  rewrite !leb_compare. intros Hab Hbc.
  destruct (String.compare a b) eqn:H1; [| |done].
  - apply String.compare_eq_iff in H1. by subst.
  - destruct (String.compare b c) eqn:H2; [| |done].
    + apply String.compare_eq_iff in H2. subst. by rewrite H1.
    + by rewrite (string_compare_trans Lt a b c).
Qed.

Lemma leb_neq_lt a b : String.leb a b = true → a ≠ b → lexical_lt a b.
Proof.
  rewrite leb_compare. unfold lexical_lt. intros Hle Hne.
  destruct (String.compare a b) eqn:H; [|done|done].
  by apply String.compare_eq_iff in H.
Qed.

(** A text comes strictly before each of its proper extensions. *)
Lemma lt_extension a c b : lexical_lt a (a +:+ String c b).
Proof.
  unfold lexical_lt. induction a as [|x a IH]; simpl; [done|].
  by rewrite ascii_compare_refl.
Qed.

(** ** [sorted] *)

Section SortedFacts.
Context {A K : Type} (key : A → K) (le : K → K → bool).

Lemma insert_by_perm x l : Py.insert_by key le x l ≡ₚ x :: l.
Proof.
  induction l as [|y l IH]; simpl; [done|].
  destruct (le (key x) (key y)); [done|].
  rewrite IH. apply Permutation_swap.
Qed.

Lemma sorted_perm l : Py.sorted key le l ≡ₚ l.
Proof.
  induction l as [|x l IH]; simpl; [done|].
  unfold Py.sorted in *. simpl. by rewrite insert_by_perm, IH.
Qed.

Context (le_total : ∀ a b, le a b = true ∨ le b a = true).
Context (le_trans : ∀ a b c, le a b = true → le b c = true → le a c = true).

Let ordered (x y : A) : Prop := le (key x) (key y) = true.

Lemma insert_by_sorted x l :
  StronglySorted ordered l → StronglySorted ordered (Py.insert_by key le x l).
Proof.
  induction 1 as [|y l Hl IH Hy]; simpl.
  - repeat constructor.
  - destruct (le (key x) (key y)) eqn:Hxy.
    + constructor; [by constructor|]. constructor; [done|].
      eapply Forall_impl; [exact Hy|]. intros z Hz. by eapply le_trans.
    + constructor; [done|].
      rewrite insert_by_perm. constructor; [|done].
      destruct (le_total (key x) (key y)); [congruence|done].
Qed.

Lemma sorted_sorted l : StronglySorted ordered (Py.sorted key le l).
Proof.
  induction l as [|x l IH]; simpl; [constructor|].
  by apply insert_by_sorted.
Qed.
End SortedFacts.

(** Text sorted with [String.leb] and free of duplicates is strictly increasing. *)
Lemma sorted_nodup_strict (l : list string) :
  StronglySorted (λ a b, String.leb a b = true) l → NoDup l → StronglySorted lexical_lt l.
Proof.
  induction 1 as [|x l Hl IH Hx]; intros Hnd; [constructor|].
  apply NoDup_cons in Hnd as [Hx' Hnd].
  constructor; [by apply IH|].
  apply Forall_forall. intros y Hy.
  apply leb_neq_lt; [by eapply Forall_forall in Hx|]. by intros ->.
Qed.

(** ** Properties of the analyzers *)

(** C6, as the code has it. The dependency detector looks at the last path
    segment of every entry, whatever its type: the result holds exactly the
    manifest names of the allow-list that are the basename of some entry,
    each once, in strictly increasing lexical order. *)
Theorem C6_dependencies (tree : list item) :
  (∀ x, x ∈ Seer.analyze_dependencies tree
        ↔ x ∈ Seer.dep_files ∧ ∃ it, it ∈ tree ∧ Seer.basename (path it) = x)
  ∧ NoDup (Seer.analyze_dependencies tree)
  ∧ StronglySorted lexical_lt (Seer.analyze_dependencies tree).
Proof.
  unfold Seer.analyze_dependencies.
  set (found_files := list_to_set _ : gset string).
  assert (NoDup (Py.sorted id String.leb (elements found_files))) as Hnd.
  { rewrite sorted_perm. apply NoDup_elements. }
  split; [|split; [done|]].
  - intros x. rewrite sorted_perm, elem_of_elements.
    unfold found_files. rewrite elem_of_list_to_set, list_elem_of_fmap.
    split.
    + intros (it & -> & Hit). apply list_elem_of_filter in Hit as [Hin Hit].
      apply bool_decide_unpack in Hin. eauto.
    + intros (Hx & it & Hit & <-). exists it. split; [done|].
      apply list_elem_of_filter. split; [|done]. by apply bool_decide_pack.
  - apply sorted_nodup_strict; [|done].
    apply (sorted_sorted id String.leb String.leb_total leb_trans).
Qed.

(** C6 fails as stated: a directory named like a manifest is reported,
    though the listing holds no file at all. *)
Lemma C6_directory_counterexample :
  "Gemfile" ∈ Seer.analyze_dependencies [Item "vendor/Gemfile" "tree"]
  ∧ ¬ ∃ it, it ∈ [Item "vendor/Gemfile" "tree"] ∧ is_blob it = true.
Proof.
  split.
  - vm_compute. apply list_elem_of_here.
  - intros (it & Hit & Hb). apply list_elem_of_singleton in Hit. by subst.
Qed.

Lemma endswith_spec p s : Py.endswith p s = true ↔ ∃ prefix, s = prefix +:+ p.
Proof.
  split.
  - induction s as [|c s IH]; simpl; rewrite orb_true_iff; intros [H|H].
    + apply String.eqb_eq in H. by exists "".
    + done.
    + apply String.eqb_eq in H. by exists "".
    + destruct (IH H) as [prefix ->]. by exists (String c prefix).
  - intros [prefix ->]. induction prefix as [|c prefix IH]; simpl.
    + destruct p as [|a p]; [done|].
      change (Py.endswith (String a p) ("" +:+ String a p))
        with (String.eqb (String a p) (String a p) || Py.endswith (String a p) p).
      by rewrite String.eqb_refl.
    + rewrite IH. apply orb_true_r.
Qed.

Lemma is_blob_true it : is_blob it = true ↔ type it = "blob".
Proof. apply String.eqb_eq. Qed.

(** [any(f(p) for p in paths)] on the set of the paths of the files. *)
Lemma any_blob_path (f : string → bool) (tree : list item) :
  existsb f (elements (list_to_set (path <$> filter (λ it, is_blob it) tree) : gset string)) = true
  ↔ ∃ it, it ∈ tree ∧ type it = "blob" ∧ f (path it) = true.
Proof.
  rewrite existsb_exists. split.
  - intros (p & Hp & Hf). apply list_elem_of_In, elem_of_elements in Hp.
    apply elem_of_list_to_set, list_elem_of_fmap in Hp as (it & -> & Hit).
    apply list_elem_of_filter in Hit as [Hb Hit].
    exists it. split; [done|]. split; [|done].
    apply is_blob_true. by apply Is_true_true.
  - intros (it & Hit & Hb & Hf). exists (path it). split; [|done].
    apply list_elem_of_In, elem_of_elements, elem_of_list_to_set, list_elem_of_fmap.
    exists it. split; [done|]. apply list_elem_of_filter. split; [|done].
    apply Is_true_true. by apply is_blob_true.
Qed.

Lemma elem_of_append_if x c s l : x ∈ Seer.append_if c s l ↔ x ∈ l ∨ (c = true ∧ x = s).
Proof.
  destruct c; simpl.
  - rewrite elem_of_app, list_elem_of_singleton. split.
    + intros [H| ->]; [by left | by right].
    + intros [H|[_ ->]]; [by left | by right].
  - split; [by left | by intros [H|[? _]]].
Qed.

Lemma occurrences_append_if x c s l :
  occurrences x (Seer.append_if c s l)
  = occurrences x l + (if c then if decide (s = x) then 1 else 0 else 0).
Proof.
  unfold occurrences. destruct c; simpl; [|lia].
  rewrite filter_app, length_app. f_equal.
  rewrite filter_cons, filter_nil. by destruct (decide (s = x)).
Qed.

(** C7, as the code has it. The containerization finding is emitted exactly
    when the path of some file ends with "Dockerfile" or with
    "docker-compose.yml", at any depth, and it is emitted at most once. *)
Theorem C7_dockerized (tree : list item) :
  (Seer.dockerized ∈ Seer.analyze_project_structure tree
   ↔ ∃ it prefix, it ∈ tree ∧ type it = "blob"
       ∧ (path it = prefix +:+ "docker-compose.yml" ∨ path it = prefix +:+ "Dockerfile"))
  ∧ occurrences Seer.dockerized (Seer.analyze_project_structure tree) ≤ 1.
Proof.
  unfold Seer.analyze_project_structure.
  split.
  - rewrite !elem_of_append_if. split.
    + intros [[[[[H|[_ H]]|[_ H]]|[_ H]]|[H _]]|[_ H]]; try done.
      * by apply elem_of_nil in H.
      * apply any_blob_path in H as (it & Hit & Hb & Hf).
        apply orb_true_iff in Hf as [Hf|Hf]; apply endswith_spec in Hf as [prefix Hf];
          exists it, prefix; eauto.
    + intros (it & prefix & Hit & Hb & Hf). left. right. split; [|done].
      apply any_blob_path. exists it. split; [done|]. split; [done|].
      apply orb_true_iff. destruct Hf as [Hf|Hf]; [left|right];
        apply endswith_spec; eauto.
  - rewrite !occurrences_append_if. unfold occurrences. simpl.
    repeat match goal with |- context [if ?c then _ else _] => destruct c end;
      try done; simpl; lia.
Qed.

(** C7 fails as stated: a file whose name only ends with "Dockerfile"
    triggers the finding. *)
Lemma C7_suffix_counterexample :
  Seer.dockerized ∈ Seer.analyze_project_structure [Item "docs/NotADockerfile" "blob"]
  ∧ ¬ ∃ it, it ∈ [Item "docs/NotADockerfile" "blob"]
            ∧ (Seer.basename (path it) = "Dockerfile"
               ∨ Seer.basename (path it) = "docker-compose.yml").
Proof.
  split.
  - vm_compute. apply list_elem_of_here.
  - intros (it & Hit & Hb). apply list_elem_of_singleton in Hit. subst.
    vm_compute in Hb. by destruct Hb.
Qed.

(** *** Cutting at the last separator *)

Lemma split_rcut_none sep s : Py.rcut sep s = None → Py.split sep s = [s].
Proof.
  induction s as [|c s IH]; simpl; [done|].
  destruct (Py.rcut sep s) as [[h t]|]; [done|].
  destruct (Ascii.eqb c sep); [done|]. intros _. by rewrite IH.
Qed.

Lemma split_rcut_some sep s h t :
  Py.rcut sep s = Some (h, t) → Py.split sep s = Py.split sep h ++ [t].
Proof.
  revert h t. induction s as [|c s IH]; simpl; [done|]. intros h t.
  destruct (Py.rcut sep s) as [[h' t']|] eqn:Hcut.
  - intros [= <- <-]. rewrite (IH h' t' eq_refl). simpl.
    destruct (Ascii.eqb c sep); [done|].
    pose proof (split_nonempty sep h'). by destruct (Py.split sep h').
  - destruct (Ascii.eqb c sep); [|done].
    intros [= <- <-]. by rewrite (split_rcut_none _ _ Hcut).
Qed.

Lemma rcut_some_app sep s h t : Py.rcut sep s = Some (h, t) → s = h +:+ String sep t.
Proof.
  revert h t. induction s as [|c s IH]; simpl; [done|]. intros h t.
  destruct (Py.rcut sep s) as [[h' t']|] eqn:Hcut.
  - intros [= <- <-]. simpl. by rewrite (IH h' t' eq_refl).
  - destruct (Ascii.eqb_spec c sep) as [->|]; [|done]. by intros [= <- <-].
Qed.

Lemma rcut_app sep a b :
  Py.rcut sep (a +:+ b)
  = match Py.rcut sep b with
    | Some (h, t) => Some (a +:+ h, t)
    | None => match Py.rcut sep a with
              | Some (h, t) => Some (h, t +:+ b)
              | None => None
              end
    end.
Proof.
  induction a as [|c a IH].
  - change ("" +:+ b) with b. by destruct (Py.rcut sep b) as [[h t]|].
  - change (String c a +:+ b) with (String c (a +:+ b)). simpl.
    rewrite IH. destruct (Py.rcut sep b) as [[h t]|]; [done|].
    destruct (Py.rcut sep a) as [[h t]|]; [done|].
    by destruct (Ascii.eqb c sep).
Qed.

Lemma rcut_cons_sep sep t : Py.rcut sep (String sep t) ≠ None.
Proof. simpl. destruct (Py.rcut sep t) as [[? ?]|]; [done|]. by rewrite Ascii.eqb_refl. Qed.

(** The basename is what follows the last '/', and the whole path when
    there is none. *)
Lemma basename_rcut p :
  Seer.basename p = match Py.rcut "/" p with Some (_, t) => t | None => p end.
Proof.
  unfold Seer.basename, Py.last_part.
  destruct (Py.rcut "/" p) as [[h t]|] eqn:Hcut.
  - rewrite (split_rcut_some _ _ _ _ Hcut). apply last_last.
  - by rewrite (split_rcut_none _ _ Hcut).
Qed.

(** *** The language histogram *)

Lemma dict_get_set {V} (d : list (string * V)) k v k' :
  Py.dict_get (Py.dict_set d k v) k' = if decide (k = k') then Some v else Py.dict_get d k'.
Proof.
  induction d as [|[k0 v0] d IH]; simpl.
  - destruct (String.eqb_spec k k'), (decide (k = k')); done.
  - destruct (String.eqb_spec k0 k) as [->|Hk0]; simpl.
    + destruct (String.eqb_spec k k'), (decide (k = k')); done.
    + destruct (String.eqb_spec k0 k') as [->|Hk0'].
      * by destruct (decide (k = k')).
      * apply IH.
Qed.

(** No extension of the table holds a '/'. *)
Lemma lang_map_no_slash a b : Py.dict_get Seer.lang_map ("." +:+ a +:+ String "/" b) = None.
Proof.
  destruct (Py.dict_get Seer.lang_map _) as [lang|] eqn:Hget; [exfalso|done].
  assert (Py.rcut "/" (a +:+ String "/" b) ≠ None) as Hcut.
  { rewrite rcut_app. pose proof (rcut_cons_sep "/" b).
    by destruct (Py.rcut "/" (String "/" b)) as [[? ?]|]. }
  change ("." +:+ a +:+ String "/" b) with (String "." (a +:+ String "/" b)) in Hget.
  unfold Seer.lang_map in Hget. cbn [Py.dict_get] in Hget.
  repeat match type of Hget with
         | (if String.eqb ?k ?x then _ else _) = _ =>
             destruct (String.eqb_spec k x) as [Heq|_];
             [injection Heq as Heq; rewrite <- Heq in Hcut; by apply Hcut|]
         end.
  done.
Qed.

(** The language the loop finds, cutting the whole path at its last dot, is
    the language of the name. *)
Lemma path_language_basename p :
  match Py.rcut "." p with
  | Some (_, extension) => Py.dict_get Seer.lang_map ("." +:+ extension)
  | None => None
  end = name_language (Seer.basename p).
Proof.
  rewrite basename_rcut. unfold name_language.
  destruct (Py.rcut "/" p) as [[dir base]|] eqn:Hcut; [|done].
  rewrite (rcut_some_app _ _ _ _ Hcut) at 1. rewrite rcut_app. simpl.
  destruct (Py.rcut "." base) as [[h e]|]; [done|].
  destruct (Py.rcut "." dir) as [[h e]|]; [|done].
  apply lang_map_no_slash.
Qed.

Lemma count_language_spec counts it :
  Seer.count_language counts it
  = match (if is_blob it then name_language (Seer.basename (path it)) else None) with
    | Some lang => Py.dict_set counts lang (default 0 (Py.dict_get counts lang) + 1)
    | None => counts
    end.
Proof.
  unfold Seer.count_language. destruct (is_blob it); [|done].
  rewrite <- path_language_basename. unfold Py.rsplit1.
  by destruct (Py.rcut "." (path it)) as [[h e]|].
Qed.

Lemma counted_as_language lang it :
  counted_as lang it
  ↔ (if is_blob it then name_language (Seer.basename (path it)) else None) = Some lang.
Proof.
  unfold counted_as. rewrite <- is_blob_true.
  destruct (is_blob it); split; try done.
  - by intros [_ Hl].
  - by intros [Hb _].
Qed.

Lemma analyze_languages_from counts tree lang :
  Py.dict_get (foldl Seer.count_language counts tree) lang
  = match List.length (filter (counted_as lang) tree) with
    | 0 => Py.dict_get counts lang
    | S n => Some (default 0 (Py.dict_get counts lang) + S n)
    end.
Proof.
  revert counts. induction tree as [|it tree IH]; intros counts; simpl; [done|].
  rewrite IH, count_language_spec, filter_cons.
  destruct (decide (counted_as lang it)) as [Hit|Hit].
  - apply counted_as_language in Hit. rewrite Hit, dict_get_set.
    rewrite decide_True by done. simpl.
    destruct (List.length _); f_equal; lia.
  - rewrite counted_as_language in Hit.
    destruct (if is_blob it then _ else _) as [lang'|]; [|done].
    rewrite dict_get_set. by rewrite decide_False by congruence.
Qed.

(** C4, as the code has it. The histogram gives each language the number of
    files whose name maps to it through the table, by "." and the text after
    the last dot of the name; a language with no such file has no counter.
    So files without a dot in their name and files with an extension the
    table does not know are left out, while a name whose only dot comes first
    is counted under the rest of the name (".py" is a Python file). *)
Theorem C4_language_histogram (tree : list item) (lang : string) :
  Py.dict_get (Seer.analyze_languages tree) lang
  = match List.length (filter (counted_as lang) tree) with
    | 0 => None
    | S n => Some (S n)
    end.
Proof. unfold Seer.analyze_languages. by rewrite analyze_languages_from. Qed.

(** C4 fails as stated: a file whose only dot comes first is counted. *)
Lemma C4_dotfile_counterexample :
  Py.rcut "." ".py" = Some ("", "py")
  ∧ Seer.analyze_languages [Item ".py" "blob"] = [("Python", 1)].
Proof. split; reflexivity. Qed.

Example histogram_of_the_specification :
  Seer.analyze_languages
    [Item "a.py" "blob"; Item "b.py" "blob"; Item "c.unknownext" "blob"; Item "README" "blob"]
  = [("Python", 2)].
Proof. reflexivity. Qed.

(** ** The tree widget *)

Section TreeFacts.
Implicit Types (tree : list SeerTui.TreeNode) (nodes : gmap string nat).

Lemma add_length q lbl d a tree :
  List.length (SeerTui.add q lbl d a tree).2 = S (List.length tree).
Proof. unfold SeerTui.add. simpl. rewrite length_app, length_alter. simpl. lia. Qed.

Lemma add_lookup_new q lbl d a tree :
  (SeerTui.add q lbl d a tree).2 !! List.length tree
  = Some (SeerTui.Node lbl (Some d) a false []).
Proof.
  unfold SeerTui.add. simpl.
  rewrite lookup_app_r by (rewrite length_alter; lia).
  by rewrite length_alter, Nat.sub_diag.
Qed.

(** A node that was there is still there, with one more child if it is
    the parent and unchanged if not. *)
Lemma add_lookup_old q lbl d a tree n nd' :
  n < List.length tree →
  (SeerTui.add q lbl d a tree).2 !! n = Some nd' ↔
  ∃ nd, tree !! n = Some nd
        ∧ SeerTui.label nd' = SeerTui.label nd
        ∧ SeerTui.data nd' = SeerTui.data nd
        ∧ SeerTui.allow_expand nd' = SeerTui.allow_expand nd
        ∧ SeerTui.is_expanded nd' = SeerTui.is_expanded nd
        ∧ SeerTui.children nd'
          = if decide (n = q) then SeerTui.children nd ++ [List.length tree]
            else SeerTui.children nd.
Proof.
  intros Hn. unfold SeerTui.add. simpl.
  rewrite lookup_app_l by (rewrite length_alter; lia).
  destruct (decide (n = q)) as [->|Hq].
  - rewrite list_lookup_alter_eq. destruct (tree !! q) as [nd|] eqn:Hnd; simpl.
    + split.
      * intros [= <-]. by exists nd.
      * intros (nd0 & [= <-] & Hl & Hd & Ha & He & Hc).
        destruct nd', nd; simpl in *. by subst.
    + split; [done|]. by intros (nd0 & ? & _).
  - rewrite list_lookup_alter_ne by done. split.
    + intros Hnd. by exists nd'.
    + intros (nd & -> & Hl & Hd & Ha & He & Hc). destruct nd', nd; simpl in *. by subst.
Qed.

Lemma add_lookup_inv q lbl d a tree n nd' :
  (SeerTui.add q lbl d a tree).2 !! n = Some nd' →
  (n = List.length tree ∧ nd' = SeerTui.Node lbl (Some d) a false [])
  ∨ (n < List.length tree ∧ (SeerTui.add q lbl d a tree).2 !! n = Some nd').
Proof.
  intros Hn. pose proof (lookup_lt_Some _ _ _ Hn) as Hlt.
  rewrite add_length in Hlt.
  destruct (decide (n = List.length tree)) as [->|Hne].
  - left. split; [done|]. rewrite add_lookup_new in Hn. congruence.
  - right. split; [lia|done].
Qed.

(** One turn of the loop, laid out. *)
Lemma place_spec nodes tree it :
  SeerTui.place (nodes, tree) it
  = (if is_blob it then nodes else <[path it := List.length tree]> nodes,
     (SeerTui.add (default SeerTui.root (nodes !! (Py.rpartition "/" (path it)).1.1))
        (icon_of it +:+ " " +:+ (Py.rpartition "/" (path it)).2)
        (path it) (negb (is_blob it)) tree).2).
Proof.
  unfold SeerTui.place, icon_of, SeerTui.add_leaf.
  destruct (Py.rpartition "/" (path it)) as [[parent sep] name].
  by destruct (is_blob it).
Qed.

Lemma add_lookup_old_some q lbl d a tree n nd :
  tree !! n = Some nd →
  ∃ nd', (SeerTui.add q lbl d a tree).2 !! n = Some nd'
         ∧ same_node nd' nd
         ∧ SeerTui.children nd'
           = if decide (n = q) then SeerTui.children nd ++ [List.length tree]
             else SeerTui.children nd.
Proof.
  intros Hnd. pose proof (lookup_lt_Some _ _ _ Hnd) as Hlt.
  destruct (lookup_lt_is_Some_2 (SeerTui.add q lbl d a tree).2 n) as [nd' Hnd'].
  { rewrite add_length. lia. }
  exists nd'. split; [done|].
  apply add_lookup_old in Hnd' as (nd0 & Hnd0 & Hl & Hd & Ha & _ & Hc); [|done].
  rewrite Hnd in Hnd0. injection Hnd0 as <-. by repeat split.
Qed.

Lemma add_lookup_old_inv q lbl d a tree n nd' :
  (SeerTui.add q lbl d a tree).2 !! n = Some nd' → n ≠ List.length tree →
  ∃ nd, tree !! n = Some nd
        ∧ same_node nd' nd
        ∧ SeerTui.children nd'
          = if decide (n = q) then SeerTui.children nd ++ [List.length tree]
            else SeerTui.children nd.
Proof.
  intros Hnd' Hn. apply add_lookup_inv in Hnd' as [[? _]|[Hlt Hnd']]; [done|].
  apply add_lookup_old in Hnd' as (nd & Hnd & Hl & Hd & Ha & _ & Hc); [|done].
  exists nd. by repeat split.
Qed.

Lemma child_of_add q lbl d a tree p n :
  child_of tree p n → child_of (SeerTui.add q lbl d a tree).2 p n.
Proof.
  intros (pn & Hpn & Hn).
  destruct (add_lookup_old_some q lbl d a tree p pn Hpn) as (pn' & Hpn' & _ & Hc).
  exists pn'. split; [done|]. rewrite Hc.
  destruct (decide (p = q)); [|done]. apply elem_of_app. by left.
Qed.

Lemma node_of_add q lbl d a tree n it :
  node_of tree n it → node_of (SeerTui.add q lbl d a tree).2 n it.
Proof.
  intros (nd & Hnd & Hn & Hd & Hl & Ha).
  destruct (add_lookup_old_some q lbl d a tree n nd Hnd) as (nd' & Hnd' & (Hl' & Hd' & Ha') & _).
  exists nd'. repeat split; congruence.
Qed.

(** The parent the loop picks is a node of the tree that can be expanded. *)
Lemma parent_node_valid placed nodes tree p :
  placed_inv placed nodes tree →
  ∃ qn, tree !! default SeerTui.root (nodes !! p) = Some qn
        ∧ SeerTui.allow_expand qn = true.
Proof.
  intros Hinv. destruct (nodes !! p) as [n|] eqn:Hp; simpl.
  - by eapply inv_nodes.
  - destruct (inv_root _ _ _ Hinv) as (r & Hr & _ & Ha). eauto.
Qed.

(** One turn of the loop keeps the invariant. *)
Lemma place_inv placed nodes tree it :
  placed_inv placed nodes tree →
  placed_inv (placed ++ [it]) (SeerTui.place (nodes, tree) it).1
    (SeerTui.place (nodes, tree) it).2.
Proof.
  intros Hinv. rewrite place_spec. cbn [fst snd].
  set (q := default SeerTui.root (nodes !! _)).
  set (lbl := icon_of it +:+ " " +:+ _).
  destruct (parent_node_valid placed nodes tree (Py.rpartition "/" (path it)).1.1 Hinv)
    as (qn & Hqn & Hqa). fold q in Hqn.
  pose proof (inv_length _ _ _ Hinv) as Hlen.
  split.
  - rewrite add_length, length_app. simpl. lia.
  - destruct (inv_root _ _ _ Hinv) as (r & Hr & Hd & Ha).
    destruct (add_lookup_old_some q lbl (path it) (negb (is_blob it)) tree _ _ Hr)
      as (r' & Hr' & (_ & Hd' & Ha') & _).
    exists r'. repeat split; congruence.
  - intros p n Hp.
    assert (nodes !! p = Some n → ∃ nd,
              (SeerTui.add q lbl (path it) (negb (is_blob it)) tree).2 !! n = Some nd
              ∧ SeerTui.allow_expand nd = true) as Hold.
    { intros Hp'. destruct (inv_nodes _ _ _ Hinv p n Hp') as (nd & Hnd & Ha).
      destruct (add_lookup_old_some q lbl (path it) (negb (is_blob it)) tree _ _ Hnd)
        as (nd' & Hnd' & (_ & _ & Ha') & _).
      exists nd'. split; [done|congruence]. }
    destruct (is_blob it) eqn:Hb; [by apply Hold|].
    destruct (decide (path it = p)) as [<-|Hne].
    + rewrite lookup_insert_eq in Hp. injection Hp as <-.
      rewrite add_lookup_new. eauto.
    + rewrite lookup_insert_ne in Hp by done. by apply Hold.
  - intros n nd' c Hnd' Hc. rewrite add_length.
    apply add_lookup_inv in Hnd' as [[-> ->]|[Hlt Hnd']].
    { by apply elem_of_nil in Hc. }
    apply add_lookup_old_inv in Hnd' as (nd & Hnd & _ & Hch); [|lia].
    rewrite Hch in Hc.
    assert (c ∈ SeerTui.children nd ∨ c = List.length tree) as [Hc' | ->].
    { destruct (decide (n = q)); [|by left].
      apply elem_of_app in Hc as [?|Hc]; [by left|].
      apply list_elem_of_singleton in Hc. by right. }
    + pose proof (inv_children _ _ _ Hinv n nd c Hnd Hc'). lia.
    + lia.
  - intros it' Hit'. apply elem_of_app in Hit' as [Hit'|Hit'].
    + destruct (inv_entries _ _ _ Hinv it' Hit') as (n & Hn & p & Hp).
      exists n. split; [by apply node_of_add|]. exists p. by apply child_of_add.
    + apply list_elem_of_singleton in Hit' as ->.
      exists (List.length tree). split.
      * eexists. split; [apply add_lookup_new|]. unfold SeerTui.root.
        repeat split; simpl. lia.
      * exists q.
        destruct (add_lookup_old_some q lbl (path it) (negb (is_blob it)) tree _ _ Hqn)
          as (qn' & Hqn' & _ & Hch).
        exists qn'. split; [done|]. rewrite Hch, decide_True by done.
        apply elem_of_app. right. by apply list_elem_of_singleton.
  - intros n nd' Hnd' Hn.
    apply add_lookup_inv in Hnd' as [[-> ->]|[Hlt Hnd']].
    { exists it. split; [|done]. apply elem_of_app. right. by apply list_elem_of_singleton. }
    apply add_lookup_old_inv in Hnd' as (nd & Hnd & (_ & Hd & _) & _); [|lia].
    destruct (inv_owner _ _ _ Hinv n nd Hnd Hn) as (it' & Hit' & Hd').
    exists it'. split; [apply elem_of_app; by left|congruence].
  - intros n nd' Hnd' Ha.
    apply add_lookup_inv in Hnd' as [[-> ->]|[Hlt Hnd']]; [done|].
    apply add_lookup_old_inv in Hnd' as (nd & Hnd & (_ & _ & Ha') & Hch); [|lia].
    rewrite Hch. destruct (decide (n = q)) as [->|_].
    + congruence.
    + apply (inv_leaf _ _ _ Hinv n nd Hnd). congruence.
Qed.

Lemma foldl_place_inv placed nodes tree rest :
  placed_inv placed nodes tree →
  placed_inv (placed ++ rest) (foldl SeerTui.place (nodes, tree) rest).1
    (foldl SeerTui.place (nodes, tree) rest).2.
Proof.
  revert placed nodes tree. induction rest as [|it rest IH]; intros placed nodes tree Hinv.
  - by rewrite app_nil_r.
  - change (foldl SeerTui.place (nodes, tree) (it :: rest))
      with (foldl SeerTui.place (SeerTui.place (nodes, tree) it) rest).
    replace (placed ++ it :: rest) with ((placed ++ [it]) ++ rest)
      by (by rewrite <- app_assoc).
    destruct (SeerTui.place (nodes, tree) it) as [nodes' tree'] eqn:Hplace.
    apply IH. pose proof (place_inv placed nodes tree it Hinv) as Hinv'.
    by rewrite Hplace in Hinv'.
Qed.

(** The state in which [populate_tree] enters its loop. *)
Lemma initial_inv lbl :
  placed_inv [] {[ "" := SeerTui.root ]} [SeerTui.Node lbl None true false []].
Proof.
  split; simpl.
  - done.
  - eauto.
  - intros p n Hp. apply lookup_singleton_Some in Hp as [_ <-]. eauto.
  - intros [|n] nd c Hnd Hc; [|done]. injection Hnd as <-. by apply elem_of_nil in Hc.
  - intros it Hit. by apply elem_of_nil in Hit.
  - by intros [|n] nd Hnd Hn.
  - intros [|n] nd Hnd Ha; [|done]. by injection Hnd as <-.
Qed.

Lemma expand_carries tree : carries (SeerTui.expand SeerTui.root tree) tree.
Proof.
  intros n nd Hnd. unfold SeerTui.expand.
  destruct (decide (n = SeerTui.root)) as [->|Hn].
  - rewrite list_lookup_alter_eq, Hnd. simpl. eexists. by repeat split.
  - rewrite list_lookup_alter_ne by done. exists nd. by repeat split.
Qed.

Lemma carries_expand tree : carries tree (SeerTui.expand SeerTui.root tree).
Proof.
  intros n nd'. unfold SeerTui.expand.
  destruct (decide (n = SeerTui.root)) as [->|Hn].
  - rewrite list_lookup_alter_eq. destruct (tree !! SeerTui.root) as [nd|]; [|done].
    simpl. intros [= <-]. exists nd. by repeat split.
  - rewrite list_lookup_alter_ne by done. intros Hnd. exists nd'. by repeat split.
Qed.

Lemma add_carries q lbl d a tree : carries (SeerTui.add q lbl d a tree).2 tree.
Proof.
  intros n nd Hnd.
  destruct (add_lookup_old_some q lbl d a tree n nd Hnd) as (nd' & Hnd' & Hs & Hc).
  exists nd'. split; [done|]. split; [done|]. rewrite Hc.
  destruct (decide (n = q)); [|done]. intros c Hin. apply elem_of_app. by left.
Qed.

Lemma carries_reach tree' tree names n :
  carries tree' tree → reach tree names n → reach tree' names n.
Proof.
  intros Hc. induction 1 as [|names p pn c cn name Hreach IH Hpn Hin Hcn Hshow].
  - constructor.
  - destruct (Hc p pn Hpn) as (pn' & Hpn' & _ & Hch).
    destruct (Hc c cn Hcn) as (cn' & Hcn' & (Hl & _) & _).
    eapply reach_child; [exact IH|exact Hpn'|by apply Hch|exact Hcn'|].
    unfold shows in *. by rewrite Hl.
Qed.

Lemma carries_node_of tree' tree n it :
  carries tree' tree → node_of tree n it → node_of tree' n it.
Proof.
  intros Hc (nd & Hnd & Hn & Hd & Hl & Ha).
  destruct (Hc n nd Hnd) as (nd' & Hnd' & (Hl' & Hd' & Ha') & _).
  exists nd'. repeat split; congruence.
Qed.

Lemma carries_child_of tree' tree p n :
  carries tree' tree → child_of tree p n → child_of tree' p n.
Proof.
  intros Hc (pn & Hpn & Hn). destruct (Hc p pn Hpn) as (pn' & Hpn' & _ & Hch).
  exists pn'. split; [done|]. by apply Hch.
Qed.

(** Leaves of a tree are leaves of a tree that has the same nodes and
    no more children. *)
Lemma carries_is_leaf tree' tree n :
  carries tree' tree → carries tree tree' → is_leaf tree n → is_leaf tree' n.
Proof.
  intros Hc Hc' (nd & Hnd & Ha & Hch).
  destruct (Hc n nd Hnd) as (nd' & Hnd' & (_ & _ & Ha') & _).
  destruct (Hc' n nd' Hnd') as (nd0 & Hnd0 & _ & Hch').
  rewrite Hnd in Hnd0. injection Hnd0 as <-.
  exists nd'. split; [done|]. split; [congruence|].
  rewrite Hch in Hch'. destruct (SeerTui.children nd') as [|c l]; [done|].
  exfalso. eapply not_elem_of_nil, Hch', list_elem_of_here.
Qed.

(** [populate_tree] on the mounted application, laid out. *)
Lemma buildTree_empty repo : SeerTui.buildTree repo [] = SeerTui.Tree ("📂 " +:+ repo).
Proof. reflexivity. Qed.

Lemma buildTree_loop repo entries :
  entries ≠ [] →
  SeerTui.buildTree repo entries
  = SeerTui.expand SeerTui.root
      (foldl SeerTui.place
         ({[ "" := SeerTui.root ]}, [SeerTui.Node ("📂 " +:+ repo) None true false []])
         (Py.sorted path String.leb entries)).2.
Proof.
  intros Hne. unfold SeerTui.buildTree, SeerTui.populate_tree. simpl.
  destruct entries as [|it entries]; [done|].
  change (SeerTui.clear (SeerTui.Tree ("📂 " +:+ repo)))
    with [SeerTui.Node ("📂 " +:+ repo) None true false []].
  change (SeerTui.set_label SeerTui.root ("📂 " +:+ repo)
            [SeerTui.Node ("📂 " +:+ repo) None true false []])
    with [SeerTui.Node ("📂 " +:+ repo) None true false []].
  by destruct (foldl _ _ _) as [nodes tree].
Qed.

Lemma buildTree_length repo entries :
  List.length (SeerTui.buildTree repo entries) = S (List.length entries).
Proof.
  destruct (decide (entries = [])) as [->|Hne]; [done|].
  rewrite buildTree_loop by done. unfold SeerTui.expand. rewrite length_alter.
  pose proof (foldl_place_inv [] _ _ (Py.sorted path String.leb entries)
                (initial_inv ("📂 " +:+ repo))) as Hinv.
  rewrite (inv_length _ _ _ Hinv). simpl. f_equal.
  apply Permutation_length, sorted_perm.
Qed.

(** Every entry of the listing has its node, under some parent. *)
Lemma buildTree_entries repo entries it :
  it ∈ entries →
  ∃ n, node_of (SeerTui.buildTree repo entries) n it
       ∧ ∃ p, child_of (SeerTui.buildTree repo entries) p n.
Proof.
  intros Hit. rewrite buildTree_loop by (intros ->; by apply elem_of_nil in Hit).
  pose proof (foldl_place_inv [] _ _ (Py.sorted path String.leb entries)
                (initial_inv ("📂 " +:+ repo))) as Hinv.
  destruct (inv_entries _ _ _ Hinv it) as (n & Hn & p & Hp).
  { simpl. by rewrite sorted_perm. }
  exists n. split.
  - eapply carries_node_of; [apply expand_carries|done].
  - exists p. eapply carries_child_of; [apply expand_carries|done].
Qed.

(** *** Walks *)

Lemma shows_label it name lbl_name d a e ch :
  shows (SeerTui.Node (icon_of it +:+ " " +:+ name) d a e ch) lbl_name ↔ lbl_name = name.
Proof.
  unfold shows, icon_of, SeerTui.file_icon, SeerTui.dir_icon. simpl.
  destruct (is_blob it); split; try (intros ->; by (left + right));
    intros [H|H]; by injection H.
Qed.

(** The root is no one's child: a walk that ends at the root is empty. *)
Lemma reach_root_nil placed nodes tree names :
  placed_inv placed nodes tree → reach tree names SeerTui.root → names = [].
Proof.
  intros Hinv Hreach. remember SeerTui.root as r eqn:Hr.
  destruct Hreach as [|names' p pn c cn name _ Hpn Hin _ _]; [done|].
  subst. pose proof (inv_children _ _ _ Hinv p pn _ Hpn Hin). unfold SeerTui.root in *. lia.
Qed.

(** The walks of the tree after [add]: those there were, and the walks to
    the parent followed by the name the new node shows. *)
Lemma reach_add placed nodes tree q it names n :
  placed_inv placed nodes tree →
  let name := (Py.rpartition "/" (path it)).2 in
  let tree' := (SeerTui.add q (icon_of it +:+ " " +:+ name) (path it)
                  (negb (is_blob it)) tree).2 in
  reach tree' names n →
  (n ≠ List.length tree ∧ reach tree names n)
  ∨ (n = List.length tree ∧ ∃ names', names = names' ++ [name] ∧ reach tree names' q).
Proof.
  intros Hinv name tree'.
  assert (is_Some (tree !! SeerTui.root)) as Hroot.
  { destruct (inv_root _ _ _ Hinv) as (r & Hr & _). eauto. }
  induction 1 as [|names p pn c cn name' Hreach IH Hpn Hin Hcn Hshow].
  - left. split; [|constructor].
    pose proof (inv_length _ _ _ Hinv). unfold SeerTui.root. lia.
  - destruct IH as [[Hp IH]|[-> _]].
    + apply add_lookup_old_inv in Hpn as (pn0 & Hpn0 & _ & Hch); [|done].
      assert (c ∈ SeerTui.children pn0 ∨ (p = q ∧ c = List.length tree)) as [Hc|[-> ->]].
      { rewrite Hch in Hin. destruct (decide (p = q)) as [->|]; [|by left].
        apply elem_of_app in Hin as [?|Hin]; [by left|].
        apply list_elem_of_singleton in Hin. by right. }
      * pose proof (inv_children _ _ _ Hinv p pn0 c Hpn0 Hc) as Hlt.
        apply add_lookup_old_inv in Hcn as (cn0 & Hcn0 & (Hl & _) & _); [|lia].
        left. split; [lia|].
        eapply reach_child; [exact IH|exact Hpn0|exact Hc|exact Hcn0|].
        unfold shows in *. by rewrite <- Hl.
      * right. split; [done|]. exists names. split; [|done].
        unfold tree' in Hcn. rewrite add_lookup_new in Hcn. injection Hcn as <-.
        apply shows_label in Hshow. by subst.
    + unfold tree' in Hpn. rewrite add_lookup_new in Hpn. injection Hpn as <-.
      by apply elem_of_nil in Hin.
Qed.

Lemma reach_add_new tree q qn it names :
  tree !! q = Some qn →
  reach tree names q →
  reach (SeerTui.add q (icon_of it +:+ " " +:+ (Py.rpartition "/" (path it)).2) (path it)
           (negb (is_blob it)) tree).2
    (names ++ [(Py.rpartition "/" (path it)).2]) (List.length tree).
Proof.
  intros Hqn Hreach.
  destruct (add_lookup_old_some q (icon_of it +:+ " " +:+ (Py.rpartition "/" (path it)).2)
              (path it) (negb (is_blob it)) tree q qn Hqn) as (qn' & Hqn' & _ & Hch).
  eapply reach_child.
  - eapply carries_reach; [apply add_carries|done].
  - exact Hqn'.
  - rewrite Hch, decide_True by done. apply elem_of_app. right. apply list_elem_of_here.
  - apply add_lookup_new.
  - by apply shows_label.
Qed.

(** Two walks to one node are the same walk. *)
Lemma reach_functional placed nodes tree names names' n :
  placed_inv placed nodes tree → walk_inv placed nodes tree →
  reach tree names n → reach tree names' n → names = names'.
Proof.
  intros Hinv Hwalk H1 H2. destruct (decide (n = SeerTui.root)) as [->|Hn].
  - rewrite (reach_root_nil _ _ _ _ Hinv H1). by rewrite (reach_root_nil _ _ _ _ Hinv H2).
  - destruct (walk_reach _ _ _ Hwalk _ _ H1 Hn) as (it1 & _ & -> & (nd1 & Hnd1 & _ & Hd1 & _)).
    destruct (walk_reach _ _ _ Hwalk _ _ H2 Hn) as (it2 & _ & -> & (nd2 & Hnd2 & _ & Hd2 & _)).
    rewrite Hnd1 in Hnd2. injection Hnd2 as <-. congruence.
Qed.

(** The parent the loop picks is where the walk along the path of the
    entry, less its last segment, ends. *)
Lemma parent_walk placed nodes tree it :
  walk_inv placed nodes tree →
  (∀ parent name, Py.rcut "/" (path it) = Some (parent, name) →
     ∃ d, d ∈ placed ∧ path d = parent ∧ is_blob d = false ∧ parent ≠ "") →
  ∃ parent_names,
    Py.split "/" (path it) = parent_names ++ [(Py.rpartition "/" (path it)).2]
    ∧ reach tree parent_names
        (default SeerTui.root (nodes !! (Py.rpartition "/" (path it)).1.1)).
Proof.
  intros Hwalk Hparent. unfold Py.rpartition.
  destruct (Py.rcut "/" (path it)) as [[parent name]|] eqn:Hcut; simpl.
  - destruct (Hparent parent name eq_refl) as (d & Hd & Hpath & Hb & Hne).
    destruct (walk_dirs _ _ _ Hwalk d Hd Hb) as [n Hn]. rewrite Hpath in Hn.
    exists (Py.split "/" parent). split; [by apply split_rcut_some|].
    rewrite Hn. simpl. by apply (walk_nodes _ _ _ Hwalk).
  - exists []. split; [by apply split_rcut_none|].
    rewrite (walk_root_key _ _ _ Hwalk). constructor.
Qed.

(** One turn of the loop keeps the walks in line with the paths. *)
Lemma place_walk_inv placed nodes tree it :
  placed_inv placed nodes tree → walk_inv placed nodes tree →
  path it ≠ "" →
  path it ∉ path <$> placed →
  (∀ parent name, Py.rcut "/" (path it) = Some (parent, name) →
     ∃ d, d ∈ placed ∧ path d = parent ∧ is_blob d = false ∧ parent ≠ "") →
  walk_inv (placed ++ [it]) (SeerTui.place (nodes, tree) it).1
    (SeerTui.place (nodes, tree) it).2.
Proof.
  intros Hinv Hwalk Hne Hfresh Hparent.
  destruct (parent_walk placed nodes tree it Hwalk Hparent) as (parent_names & Hsplit & Hq).
  destruct (parent_node_valid placed nodes tree (Py.rpartition "/" (path it)).1.1 Hinv)
    as (qn & Hqn & _).
  pose proof (inv_length _ _ _ Hinv) as Hlen.
  pose proof (reach_add_new tree _ qn it parent_names Hqn Hq) as Hnew.
  rewrite <- Hsplit in Hnew.
  assert (node_of (SeerTui.place (nodes, tree) it).2 (List.length tree) it) as Hnode.
  { rewrite place_spec. cbn [fst snd]. eexists. split; [apply add_lookup_new|].
    unfold SeerTui.root. repeat split; simpl. lia. }
  rewrite place_spec in *. cbn [fst snd] in *.
  set (q := default SeerTui.root (nodes !! _)) in *.
  set (lbl := icon_of it +:+ " " +:+ _) in *.
  set (tree' := (SeerTui.add q lbl (path it) (negb (is_blob it)) tree).2) in *.
  assert (carries tree' tree) as Hcarries by apply add_carries.
  split.
  - destruct (is_blob it); [by apply Hwalk|].
    rewrite lookup_insert_ne by done. by apply Hwalk.
  - intros p n Hp Hpne.
    assert (nodes !! p = Some n → reach tree' (Py.split "/" p) n) as Hold.
    { intros Hp'. eapply carries_reach; [done|]. by apply (walk_nodes _ _ _ Hwalk). }
    destruct (is_blob it); [by apply Hold|].
    destruct (decide (path it = p)) as [<-|Hp'].
    + rewrite lookup_insert_eq in Hp. by injection Hp as <-.
    + rewrite lookup_insert_ne in Hp by done. by apply Hold.
  - intros d Hd Hb.
    assert (d ∈ placed → is_Some ((if is_blob it then nodes
              else <[path it := List.length tree]> nodes) !! path d)) as Hold.
    { intros Hd'. destruct (walk_dirs _ _ _ Hwalk d Hd' Hb) as [n Hn].
      destruct (is_blob it); [by eauto|].
      destruct (decide (path it = path d)) as [->|Hpd].
      - rewrite lookup_insert_eq. eauto.
      - rewrite lookup_insert_ne by done. eauto. }
    apply elem_of_app in Hd as [Hd|Hd]; [by apply Hold|].
    apply list_elem_of_singleton in Hd as ->. rewrite Hb, lookup_insert_eq. eauto.
  - intros names n Hreach Hn.
    apply (reach_add placed nodes tree q it names n Hinv) in Hreach
      as [[Hn' Hreach]|[-> (names' & -> & Hreach)]].
    + destruct (walk_reach _ _ _ Hwalk names n Hreach Hn) as (it' & Hit' & Hnames & Hnode').
      exists it'. split; [apply elem_of_app; by left|]. split; [done|].
      by eapply carries_node_of.
    + exists it. split; [apply elem_of_app; right; apply list_elem_of_here|].
      split; [|done]. rewrite Hsplit. f_equal.
      by eapply reach_functional.
  - intros it' Hit'. apply elem_of_app in Hit' as [Hit'|Hit'].
    + destruct (walk_entries _ _ _ Hwalk it' Hit') as (n & Hreach & Hnode').
      exists n. split; [by eapply carries_reach|by eapply carries_node_of].
    + apply list_elem_of_singleton in Hit' as ->. by exists (List.length tree).
  - intros n n' nd nd' Hnd Hnd' Hn Hn' Hdata.
    assert (∀ m md, tree' !! m = Some md → m ≠ SeerTui.root → m ≠ List.length tree →
              SeerTui.data md ≠ Some (path it)) as Hother.
    { intros m md Hmd Hm Hm' Hd.
      apply add_lookup_old_inv in Hmd as (md0 & Hmd0 & (_ & Hd0 & _) & _); [|done].
      destruct (inv_owner _ _ _ Hinv m md0 Hmd0 Hm) as (it' & Hit' & Hd').
      apply Hfresh. apply list_elem_of_fmap. exists it'. split; [congruence|done]. }
    destruct (decide (n = List.length tree)) as [->|Hnl],
             (decide (n' = List.length tree)) as [->|Hnl']; [done| | |].
    + unfold tree' in Hnd. rewrite add_lookup_new in Hnd. injection Hnd as <-.
      exfalso. by apply (Hother n' nd' Hnd' Hn' Hnl').
    + unfold tree' in Hnd'. rewrite add_lookup_new in Hnd'. injection Hnd' as <-.
      exfalso. by apply (Hother n nd Hnd Hn Hnl).
    + apply add_lookup_old_inv in Hnd as (nd0 & Hnd0 & (_ & Hd0 & _) & _); [|done].
      apply add_lookup_old_inv in Hnd' as (nd0' & Hnd0' & (_ & Hd0' & _) & _); [|done].
      apply (walk_inj _ _ _ Hwalk n n' nd0 nd0'); congruence.
Qed.

Lemma initial_walk_inv lbl :
  walk_inv [] {[ "" := SeerTui.root ]} [SeerTui.Node lbl None true false []].
Proof.
  split.
  - apply lookup_singleton_eq.
  - intros p n Hp Hne. apply lookup_singleton_Some in Hp as [? _]. by subst.
  - intros d Hd. by apply elem_of_nil in Hd.
  - intros names n Hreach Hn. exfalso.
    destruct Hreach as [|names p pn c cn name _ Hpn Hin _ _]; [done|].
    destruct p as [|p]; [|done]. injection Hpn as <-. by apply elem_of_nil in Hin.
  - intros it Hit. by apply elem_of_nil in Hit.
  - by intros [|n] n' nd nd' Hnd Hnd' Hn.
Qed.

(** A directory is sorted before what it holds. *)
Lemma parent_before l placed it rest d parent name :
  l = placed ++ it :: rest →
  StronglySorted (λ a b, String.leb (path a) (path b) = true) l →
  d ∈ l → path d = parent → Py.rcut "/" (path it) = Some (parent, name) →
  d ∈ placed.
Proof.
  intros -> Hsorted Hd Hpath Hcut.
  apply elem_of_app in Hd as [Hd|Hd]; [done|]. exfalso.
  assert (String.leb (path it) (path d) = true) as Hle.
  { apply elem_of_cons in Hd as [->|Hd]; [apply leb_refl|].
    replace (placed ++ it :: rest) with ((placed ++ [it]) ++ rest) in Hsorted
      by (by rewrite <- app_assoc).
    eapply (StronglySorted_app_1_elem_of _ _ _ it d Hsorted); [|done].
    apply elem_of_app. right. apply list_elem_of_here. }
  apply leb_compare in Hle. apply Hle.
  rewrite String.compare_antisym, Hpath, (rcut_some_app _ _ _ _ Hcut).
  by rewrite (lt_extension parent "/" name).
Qed.

Lemma foldl_place_walk_inv l placed rest nodes tree :
  l = placed ++ rest →
  StronglySorted (λ a b, String.leb (path a) (path b) = true) l →
  NoDup (path <$> l) →
  (∀ it, it ∈ l → path it ≠ "") →
  parents_listed l →
  placed_inv placed nodes tree → walk_inv placed nodes tree →
  placed_inv l (foldl SeerTui.place (nodes, tree) rest).1
    (foldl SeerTui.place (nodes, tree) rest).2
  ∧ walk_inv l (foldl SeerTui.place (nodes, tree) rest).1
      (foldl SeerTui.place (nodes, tree) rest).2.
Proof.
  intros Hl Hsorted Hnodup Hne Hparents.
  revert placed nodes tree Hl. induction rest as [|it rest IH];
    intros placed nodes tree Hl Hinv Hwalk.
  - rewrite app_nil_r in Hl. by subst.
  - change (foldl SeerTui.place (nodes, tree) (it :: rest))
      with (foldl SeerTui.place (SeerTui.place (nodes, tree) it) rest).
    pose proof (place_inv placed nodes tree it Hinv) as Hinv'.
    assert (walk_inv (placed ++ [it]) (SeerTui.place (nodes, tree) it).1
              (SeerTui.place (nodes, tree) it).2) as Hwalk'.
    { assert (it ∈ l) as Hit.
      { rewrite Hl. apply elem_of_app. right. apply list_elem_of_here. }
      apply place_walk_inv; [done|done|by apply Hne| |].
      - rewrite Hl, fmap_app, fmap_cons in Hnodup.
        apply NoDup_app in Hnodup as (_ & Hdisj & _).
        intros Hin. apply (Hdisj _ Hin), list_elem_of_here.
      - intros parent name Hcut.
        destruct (Hparents it parent name Hit Hcut) as (d & Hd & Hpath & Hb).
        exists d. split; [by eapply parent_before|].
        split; [done|]. split; [done|]. rewrite <- Hpath. by apply Hne. }
    destruct (SeerTui.place (nodes, tree) it) as [nodes' tree'].
    apply (IH (placed ++ [it])); [|done|done]. by rewrite <- app_assoc.
Qed.

Lemma join_split sep s : Py.join (String sep "") (Py.split sep s) = s.
Proof.
  unfold Py.join. induction s as [|c s IH]; [done|]. simpl.
  pose proof (split_nonempty sep s) as Hne.
  destruct (Ascii.eqb_spec c sep) as [->|Hc].
  - destruct (Py.split sep s) as [|h t]; [done|].
    change (String.concat (String sep "") ("" :: h :: t))
      with (String sep (String.concat (String sep "") (h :: t))).
    by rewrite IH.
  - destruct (Py.split sep s) as [|h [|h' t]]; [done| |].
    + simpl in *. by rewrite IH.
    + change (String.concat (String sep "") (String c h :: h' :: t))
        with (String c (String.concat (String sep "") (h :: h' :: t))).
      by rewrite IH.
Qed.

(** The loop of [populate_tree] on a listing that respects the data model
    and lists its directories. *)
Lemma loop_inv lbl entries :
  (∀ it, it ∈ entries → path it ≠ "") →
  NoDup (path <$> entries) →
  parents_listed entries →
  let s := foldl SeerTui.place
             ({[ "" := SeerTui.root ]}, [SeerTui.Node lbl None true false []])
             (Py.sorted path String.leb entries) in
  placed_inv (Py.sorted path String.leb entries) s.1 s.2
  ∧ walk_inv (Py.sorted path String.leb entries) s.1 s.2.
Proof.
  intros Hne Hnodup Hparents s.
  assert (∀ it, it ∈ Py.sorted path String.leb entries ↔ it ∈ entries) as Hin.
  { intros it. by rewrite sorted_perm. }
  apply (foldl_place_walk_inv _ []); [done| | | | |apply initial_inv|apply initial_walk_inv].
  - apply (sorted_sorted path String.leb String.leb_total leb_trans).
  - by rewrite sorted_perm.
  - intros it Hit. apply Hne. by apply Hin.
  - intros it parent name Hit Hcut.
    destruct (Hparents it parent name (proj1 (Hin it) Hit) Hcut) as (d & Hd & Hrest).
    exists d. split; [by apply Hin|done].
Qed.

Lemma reach_inv tree l n :
  reach tree l n →
  (l = [] ∧ n = SeerTui.root)
  ∨ ∃ names name p pn cn,
      l = names ++ [name] ∧ reach tree names p ∧ tree !! p = Some pn
      ∧ n ∈ SeerTui.children pn ∧ tree !! n = Some cn ∧ shows cn name.
Proof. destruct 1; [by left|right]. eauto 12. Qed.

Lemma reach_inv_nil tree n : reach tree [] n → n = SeerTui.root.
Proof.
  intros H. apply reach_inv in H as [[_ ->]|(names & name & p & pn & cn & Hl & _)]; [done|].
  by apply app_cons_not_nil in Hl.
Qed.

Lemma reach_inv_snoc tree names name c :
  reach tree (names ++ [name]) c →
  ∃ p pn cn, reach tree names p ∧ tree !! p = Some pn ∧ c ∈ SeerTui.children pn
             ∧ tree !! c = Some cn ∧ shows cn name.
Proof.
  intros H. apply reach_inv in H as [[Hl _]|(names' & name' & p & pn & cn & Hl & H)].
  - symmetry in Hl. by apply app_cons_not_nil in Hl.
  - apply app_inj_tail in Hl as [-> ->]. by exists p, pn, cn.
Qed.
End TreeFacts.

(** ** Properties of the tree of the explorer *)

(** C5, as the code has it. No entry is skipped: the tree has one node for
    each entry of the listing besides the root, and an entry whose path is
    empty is among them, as a node with an empty name and the empty path as
    its data, attached under some node of the tree; [buildTree] yields a tree
    on every listing. *)
Theorem C5_empty_path_is_placed (repo : string) (entries : list item) (it : item) :
  it ∈ entries → path it = "" →
  List.length (SeerTui.buildTree repo entries) = S (List.length entries)
  ∧ ∃ n nd,
      SeerTui.buildTree repo entries !! n = Some nd
      ∧ n ≠ SeerTui.root
      ∧ SeerTui.data nd = Some ""
      ∧ SeerTui.label nd = icon_of it +:+ " "
      ∧ ∃ p, child_of (SeerTui.buildTree repo entries) p n.
Proof.
  intros Hit Hpath. split; [apply buildTree_length|].
  destruct (buildTree_entries repo entries it Hit) as (n & (nd & Hnd & Hn & Hd & Hl & _) & Hp).
  rewrite Hpath in Hd, Hl. exists n, nd. by repeat split.
Qed.

Lemma C5_empty_path_is_placed_witness :
  ∃ n nd,
    SeerTui.buildTree "o/n" [Item "" "blob"; Item "a" "blob"] !! n = Some nd
    ∧ n ≠ SeerTui.root
    ∧ SeerTui.data nd = Some ""
    ∧ SeerTui.label nd = SeerTui.file_icon +:+ " ".
Proof.
  destruct (C5_empty_path_is_placed "o/n" [Item "" "blob"; Item "a" "blob"] (Item "" "blob"))
    as (_ & n & nd & Hnd & Hn & Hd & Hl & _).
  - apply list_elem_of_here.
  - reflexivity.
  - exists n, nd. by repeat split.
Defined.

(** C5 fails as stated: an entry with an empty path becomes a node. *)
Lemma C5_empty_path_counterexample :
  SeerTui.buildTree "o/n" [Item "" "blob"]
  = [SeerTui.Node "📂 o/n" None true true [1];
     SeerTui.Node "📄 " (Some "") false false []].
Proof. vm_compute. reflexivity. Qed.

(** The tree for the listing that holds only the file "x/y.txt". *)
Lemma buildTree_orphan repo :
  SeerTui.buildTree repo listing_orphan
  = [SeerTui.Node ("📂 " +:+ repo) None true true [1];
     SeerTui.Node "📄 y.txt" (Some "x/y.txt") false false []].
Proof. reflexivity. Qed.

(** C1, as the code has it. For the listing that holds only the file
    "x/y.txt", the tree is the root and one more node, the leaf for the
    entry: it shows "y.txt", carries the whole path "x/y.txt" as its data
    and is a child of the root, reached from it by the one step "y.txt". The
    entry is kept, and no node that shows "x" is made for it to hang from. *)
Theorem C1_orphan_file_under_root (repo : string) :
  List.length (SeerTui.buildTree repo listing_orphan) = 2
  ∧ (∃ n, node_of (SeerTui.buildTree repo listing_orphan) n (Item "x/y.txt" "blob")
          ∧ is_leaf (SeerTui.buildTree repo listing_orphan) n
          ∧ child_of (SeerTui.buildTree repo listing_orphan) SeerTui.root n
          ∧ reach (SeerTui.buildTree repo listing_orphan) ["y.txt"] n)
  ∧ (∀ n nd, SeerTui.buildTree repo listing_orphan !! n = Some nd → n ≠ SeerTui.root →
             ¬ shows nd "x").
Proof.
  rewrite buildTree_orphan. split; [done|]. split.
  - exists 1. split; [|split; [|split]].
    + eexists. split; [reflexivity|]. by repeat split.
    + eexists. by repeat split.
    + eexists. split; [reflexivity|]. apply list_elem_of_here.
    + eapply (reach_child _ [] SeerTui.root _ 1 _ "y.txt");
        [constructor|reflexivity|apply list_elem_of_here|reflexivity|by left].
  - intros [|[|n]] nd Hnd Hn; [done| |done]. injection Hnd as <-. by intros [H|H].
Qed.

(** C1 fails as stated: in the tree for the listing that holds only the file
    "x/y.txt", the walk along "x" reaches no node for the leaf to hang from,
    and the leaf is a child of the root. *)
Lemma C1_no_ancestor_counterexample :
  (¬ ∃ n, reach (SeerTui.buildTree "o/n" listing_orphan) ["x"] n)
  ∧ child_of (SeerTui.buildTree "o/n" listing_orphan) SeerTui.root 1
  ∧ is_leaf (SeerTui.buildTree "o/n" listing_orphan) 1.
Proof.
  rewrite buildTree_orphan. split; [|split].
  - intros [n Hreach]. change ["x"] with ([] ++ ["x"]) in Hreach.
    apply reach_inv_snoc in Hreach as (p & pn & cn & Hroot & Hpn & Hin & Hcn & Hshow).
    apply reach_inv_nil in Hroot as ->. injection Hpn as <-.
    apply list_elem_of_singleton in Hin as ->. injection Hcn as <-.
    by destruct Hshow as [H|H].
  - eexists. split; [reflexivity|]. apply list_elem_of_here.
  - eexists. by repeat split.
Qed.

(** C2, as the code has it. On a listing that respects the data model (no
    empty path, no path twice) and that lists, for every entry in a
    directory, that directory as an entry that is not a file: every file is
    a leaf, the only node the walk along its path segments reaches and the
    only node that stands for it; and the names along the walk from the root
    to any leaf, joined by '/', are the path of the file it stands for. *)
Theorem C2_files_are_leaves (repo : string) (entries : list item) :
  (∀ it, it ∈ entries → path it ≠ "") →
  NoDup (path <$> entries) →
  parents_listed entries →
  (∀ it, it ∈ entries → is_blob it = true →
     ∃ n, reach (SeerTui.buildTree repo entries) (Py.split "/" (path it)) n
          ∧ is_leaf (SeerTui.buildTree repo entries) n
          ∧ node_of (SeerTui.buildTree repo entries) n it
          ∧ (∀ n', reach (SeerTui.buildTree repo entries) (Py.split "/" (path it)) n' → n' = n)
          ∧ (∀ n', node_of (SeerTui.buildTree repo entries) n' it → n' = n))
  ∧ (∀ names n,
       reach (SeerTui.buildTree repo entries) names n →
       is_leaf (SeerTui.buildTree repo entries) n →
       ∃ it, it ∈ entries ∧ is_blob it = true ∧ Py.join "/" names = path it
             ∧ node_of (SeerTui.buildTree repo entries) n it).
Proof.
  intros Hne Hnodup Hparents.
  destruct (decide (entries = [])) as [->|Hentries].
  { split; [intros it Hit; by apply elem_of_nil in Hit|].
    intros names n _ (nd & Hnd & Ha & _). rewrite buildTree_empty in Hnd.
    destruct n as [|n]; [|done]. by injection Hnd as <-. }
  rewrite buildTree_loop by done.
  destruct (loop_inv ("📂 " +:+ repo) entries Hne Hnodup Hparents) as [Hinv Hwalk].
  set (s := foldl _ _ _) in *.
  assert (∀ it, it ∈ Py.sorted path String.leb entries ↔ it ∈ entries) as Hin.
  { intros it. by rewrite sorted_perm. }
  pose proof (expand_carries s.2) as Hto. pose proof (carries_expand s.2) as Hfrom.
  assert (∀ n it, node_of (SeerTui.expand SeerTui.root s.2) n it → node_of s.2 n it) as Hnode.
  { intros n it. by apply carries_node_of. }
  assert (∀ n it it', node_of s.2 n it → node_of s.2 n it' → path it = path it') as Hsame.
  { intros n it it' (nd & Hnd & _ & Hd & _) (nd' & Hnd' & _ & Hd' & _). congruence. }
  assert (∀ n n' it, node_of s.2 n it → node_of s.2 n' it → n' = n) as Hone.
  { intros n n' it (nd & Hnd & Hn & Hd & _) (nd' & Hnd' & Hn' & Hd' & _).
    apply (walk_inj _ _ _ Hwalk n' n nd' nd); congruence. }
  split.
  - intros it Hit Hb. apply Hin in Hit.
    destruct (walk_entries _ _ _ Hwalk it Hit) as (n & Hreach & Hn).
    exists n. split; [by eapply carries_reach|]. split; [|split; [by eapply carries_node_of|split]].
    + apply (carries_is_leaf _ s.2); [done|done|].
      destruct Hn as (nd & Hnd & _ & _ & _ & Ha). rewrite Hb in Ha.
      exists nd. split; [done|]. split; [done|]. by eapply inv_leaf.
    + intros n' Hreach'. apply (carries_reach s.2) in Hreach'; [|done].
      assert (n' ≠ SeerTui.root) as Hn'.
      { intros ->. apply (reach_root_nil _ _ _ _ Hinv) in Hreach'.
        by apply split_nonempty in Hreach'. }
      destruct (walk_reach _ _ _ Hwalk _ _ Hreach' Hn') as (it' & _ & Hsplit & Hnode').
      apply (f_equal (Py.join "/")) in Hsplit. rewrite !join_split in Hsplit.
      apply (Hone n n' it Hn).
      destruct Hnode' as (nd' & Hnd' & Hr & Hd & Hl & Ha).
      destruct Hn as (nd & Hnd & _ & Hd0 & Hl0 & Ha0).
      assert (n' = n) as ->.
      { apply (walk_inj _ _ _ Hwalk n' n nd' nd); try done.
        - intros ->. destruct (inv_root _ _ _ Hinv) as (r & Hroot & Hdr & _). congruence.
        - congruence. }
      exists nd. by repeat split.
    + intros n' Hn'. apply (Hone n n' it Hn). by apply Hnode.
  - intros names n Hreach (nd' & Hnd' & Ha' & _).
    apply (carries_reach s.2) in Hreach; [|done].
    destruct (Hfrom n nd' Hnd') as (nd & Hnd & (_ & _ & Ha) & _).
    assert (n ≠ SeerTui.root) as Hn.
    { intros ->. destruct (inv_root _ _ _ Hinv) as (r & Hroot & _ & Har). congruence. }
    destruct (walk_reach _ _ _ Hwalk _ _ Hreach Hn) as (it & Hit & -> & Hnode').
    exists it. split; [by apply Hin|]. split; [|split; [apply join_split|by eapply carries_node_of]].
    destruct Hnode' as (nd0 & Hnd0 & _ & _ & _ & Ha0).
    rewrite Hnd in Hnd0. injection Hnd0 as <-.
    destruct (is_blob it); [done|]. simpl in Ha0. congruence.
Qed.

Lemma C2_files_are_leaves_witness :
  ∃ n, reach (SeerTui.buildTree "o/n" listing_a_b) ["a"; "b.txt"] n
       ∧ is_leaf (SeerTui.buildTree "o/n" listing_a_b) n.
Proof.
  destruct (C2_files_are_leaves "o/n" listing_a_b) as [Hfiles _].
  - intros it Hit. unfold listing_a_b in Hit.
    apply elem_of_cons in Hit as [->|Hit]; [done|].
    apply list_elem_of_singleton in Hit as ->. done.
  - unfold listing_a_b. simpl. apply NoDup_cons. split.
    + intros Hin. apply list_elem_of_singleton in Hin. done.
    + apply NoDup_singleton.
  - intros it parent name Hit Hcut. unfold listing_a_b in Hit.
    apply elem_of_cons in Hit as [->|Hit]; [done|].
    apply list_elem_of_singleton in Hit as ->.
    injection Hcut as <- <-. exists (Item "a" "tree").
    split; [apply list_elem_of_here|]. split; reflexivity.
  - destruct (Hfiles (Item "a/b.txt" "blob")) as (n & Hreach & Hleaf & _).
    + apply list_elem_of_further, list_elem_of_here.
    + reflexivity.
    + exists n. split; [exact Hreach|exact Hleaf].
Defined.

(** C2 fails as stated: for the listing that holds only the file "x/y.txt",
    the walk along "x" and "y.txt" reaches no node, and the walk that reaches
    the leaf of the file spells "y.txt", not its path. *)
Lemma C2_orphan_counterexample :
  (¬ ∃ n, reach (SeerTui.buildTree "o/n" listing_orphan) (Py.split "/" "x/y.txt") n)
  ∧ reach (SeerTui.buildTree "o/n" listing_orphan) ["y.txt"] 1
  ∧ is_leaf (SeerTui.buildTree "o/n" listing_orphan) 1
  ∧ Py.join "/" ["y.txt"] ≠ "x/y.txt".
Proof.
  change (SeerTui.buildTree "o/n" listing_orphan)
    with [SeerTui.Node "📂 o/n" None true true [1];
          SeerTui.Node "📄 y.txt" (Some "x/y.txt") false false []].
  split; [|split; [|split]].
  - intros [n Hreach]. change (Py.split "/" "x/y.txt") with (["x"] ++ ["y.txt"]) in Hreach.
    apply reach_inv_snoc in Hreach as (p & pn & cn & Hreach & _).
    change ["x"] with ([] ++ ["x"]) in Hreach.
    apply reach_inv_snoc in Hreach as (p' & pn' & cn' & Hroot & Hpn' & Hin & Hcn' & Hshow).
    apply reach_inv_nil in Hroot as ->. injection Hpn' as <-.
    apply list_elem_of_singleton in Hin as ->. injection Hcn' as <-.
    by destruct Hshow as [H|H].
  - apply (reach_child _ [] SeerTui.root
             (SeerTui.Node "📂 o/n" None true true [1]) 1
             (SeerTui.Node "📄 y.txt" (Some "x/y.txt") false false []) "y.txt").
    + constructor.
    + reflexivity.
    + apply list_elem_of_here.
    + reflexivity.
    + by left.
  - eexists. by repeat split.
  - done.
Qed.

(** ** Further properties of the analyzers *)

Lemma startswith_spec p s : Py.startswith p s = true ↔ ∃ rest, s = p +:+ rest.
Proof.
  revert s. induction p as [|a p IH]; intros s.
  - split; [intros _; by exists s|done].
  - destruct s as [|b s]; simpl.
    + split; [done|]. by intros [rest Hrest].
    + rewrite andb_true_iff, IH. split.
      * intros [Hab [rest ->]]. apply Ascii.eqb_eq in Hab as ->. by exists rest.
      * intros [rest Hrest].
        change (String a p +:+ rest) with (String a (p +:+ rest)) in Hrest.
        injection Hrest as -> ->. split; [apply Ascii.eqb_refl|by exists rest].
Qed.

Lemma contains_spec k s : Py.contains k s = true ↔ ∃ before after, s = before +:+ k +:+ after.
Proof.
  split.
  - induction s as [|c s IH]; simpl; rewrite orb_true_iff; intros [H|H]; try done.
    + apply startswith_spec in H as [rest ->]. by exists "", rest.
    + apply startswith_spec in H as [rest ->]. by exists "", rest.
    + destruct (IH H) as (before & after & ->). by exists (String c before), after.
  - intros (before & after & ->). induction before as [|c before IH].
    + change ("" +:+ k +:+ after) with (k +:+ after).
      assert (Py.startswith k (k +:+ after) = true) as Hk
        by (apply startswith_spec; by exists after).
      destruct (k +:+ after); simpl; by rewrite Hk.
    + change (String c before +:+ k +:+ after) with (String c (before +:+ k +:+ after)).
      simpl. rewrite IH. apply orb_true_r.
Qed.

(** A path that is reported is reported as often as it is listed. *)
Lemma occurrences_smells lower tree p :
  p ∈ Seer.analyze_code_smells lower tree →
  occurrences p (Seer.analyze_code_smells lower tree)
  = List.length (filter (λ it, path it = p) tree).
Proof.
  unfold Seer.analyze_code_smells, occurrences. intros Hin.
  apply list_elem_of_fmap in Hin as (it0 & -> & Hit0).
  apply list_elem_of_filter in Hit0 as [Hk _]. apply Is_true_true in Hk.
  induction tree as [|it tree IH]; [done|].
  rewrite !filter_cons.
  destruct (decide (path it = path it0)) as [Heq|Hne].
  - rewrite decide_True by (apply Is_true_true; by rewrite Heq).
    rewrite fmap_cons, filter_cons, decide_True by done.
    cbn [List.length]. f_equal. exact IH.
  - destruct (decide _); [|exact IH].
    rewrite fmap_cons, filter_cons, decide_False by done. exact IH.
Qed.

(** X1. The risk detector reports a path exactly when some entry of the
    listing, file or directory, has that path and its lowered form holds one
    of the five keywords somewhere; the result keeps the order of the listing
    (it is a subsequence of its paths, so nothing is reported that is not
    listed) and its repetitions: a path that is reported occurs in the result
    as often as entries of the listing have it. *)
Theorem X1_code_smells (lower : string → string) (tree : list item) :
  (∀ p, p ∈ Seer.analyze_code_smells lower tree
        ↔ ∃ it keyword before after,
            it ∈ tree ∧ path it = p
            ∧ keyword ∈ [".env"; "secret"; "credentials"; "id_rsa"; ".pem"]
            ∧ lower p = before +:+ keyword +:+ after)
  ∧ sublist (Seer.analyze_code_smells lower tree) (path <$> tree)
  ∧ (∀ p, p ∈ Seer.analyze_code_smells lower tree →
          occurrences p (Seer.analyze_code_smells lower tree)
          = List.length (filter (λ it, path it = p) tree)).
Proof.
  split; [|split; [|apply occurrences_smells]]; unfold Seer.analyze_code_smells.
  - intros p. rewrite list_elem_of_fmap. split.
    + intros (it & -> & Hit). apply list_elem_of_filter in Hit as [Hk Hit].
      apply Is_true_true, existsb_exists in Hk as (keyword & Hin & Hk).
      apply contains_spec in Hk as (before & after & Hk).
      apply list_elem_of_In in Hin. by exists it, keyword, before, after.
    + intros (it & keyword & before & after & Hit & <- & Hin & Hk).
      exists it. split; [done|]. apply list_elem_of_filter. split; [|done].
      apply Is_true_true, existsb_exists. exists keyword.
      split; [by apply list_elem_of_In|]. apply contains_spec. eauto.
  - apply fmap_sublist, sublist_filter.
Qed.

(** X2. The structure detector lists its findings in the fixed order of its
    rules and each at most once: the result is a subsequence of the five
    findings. *)
Theorem X2_structures_in_order (tree : list item) :
  sublist (Seer.analyze_project_structure tree) all_structures.
Proof.
  unfold Seer.analyze_project_structure, all_structures, Seer.append_if.
  repeat match goal with |- context [if ?c then _ else _] => destruct c end; simpl;
    repeat first [apply sublist_nil | apply sublist_skip | apply sublist_cons].
Qed.

(** The first segment of a path. *)
Lemma split_head sep p h t :
  Py.split sep p = h :: t → (t = [] ∧ p = h) ∨ ∃ rest, p = h +:+ String sep rest.
Proof.
  revert h t. induction p as [|c p IH]; intros h t; simpl.
  - intros [= <- <-]. by left.
  - destruct (Ascii.eqb_spec c sep) as [->|Hc].
    + intros [= <- <-]. right. by exists p.
    + destruct (Py.split sep p) as [|h' t'] eqn:Hsplit; [by destruct (split_nonempty sep p)|].
      intros [= <- <-]. destruct (IH h' t' eq_refl) as [[-> ->]|[rest ->]].
      * by left.
      * right. by exists rest.
Qed.

Lemma split_head_sep sep h rest :
  Py.rcut sep h = None → Py.split sep (h +:+ String sep rest) = h :: Py.split sep rest.
Proof.
  induction h as [|c h IH].
  - intros _. change ("" +:+ String sep rest) with (String sep rest). simpl.
    by rewrite Ascii.eqb_refl.
  - change (String c h +:+ String sep rest) with (String c (h +:+ String sep rest)). simpl.
    destruct (Py.rcut sep h) as [[? ?]|]; [done|].
    destruct (Ascii.eqb c sep); [done|]. intros _. by rewrite IH.
Qed.

(** [any(f(p) for p in paths)] over the first segments of the files. *)
Lemma top_of_blob (x : string) (tree : list item) :
  x ∈ (list_to_set ((λ p, Py.first_part (Py.split "/" p)) <$>
         elements (list_to_set (path <$> filter (λ it, is_blob it) tree) : gset string))
       : gset string)
  ↔ ∃ it, it ∈ tree ∧ type it = "blob" ∧ Py.first_part (Py.split "/" (path it)) = x.
Proof.
  rewrite elem_of_list_to_set, list_elem_of_fmap. split.
  - intros (p & -> & Hp). apply elem_of_elements, elem_of_list_to_set in Hp.
    apply list_elem_of_fmap in Hp as (it & -> & Hit).
    apply list_elem_of_filter in Hit as [Hb Hit].
    exists it. split; [done|]. split; [|done]. apply is_blob_true. by apply Is_true_true.
  - intros (it & Hit & Hb & <-). exists (path it). split; [done|].
    apply elem_of_elements, elem_of_list_to_set, list_elem_of_fmap.
    exists it. split; [done|]. apply list_elem_of_filter. split; [|done].
    apply Is_true_true. by apply is_blob_true.
Qed.

Lemma first_part_spec p x :
  Py.rcut "/" x = None →
  Py.first_part (Py.split "/" p) = x ↔ p = x ∨ ∃ rest, p = x +:+ "/" +:+ rest.
Proof.
  intros Hx. split.
  - destruct (Py.split "/" p) as [|h t] eqn:Hsplit; [by destruct (split_nonempty "/" p)|].
    simpl. intros ->. destruct (split_head _ _ _ _ Hsplit) as [[_ ->]|[rest ->]]; [by left|].
    right. by exists rest.
  - intros [->|[rest ->]].
    + by rewrite split_rcut_none.
    + change (x +:+ "/" +:+ rest) with (x +:+ String "/" rest).
      by rewrite split_head_sep.
Qed.

(** A finding is in the result when its rule fires. *)
Lemma in_structures x tree :
  x ∈ Seer.analyze_project_structure tree ↔
  let paths : gset string := list_to_set (path <$> filter (λ it, is_blob it) tree) in
  let tops : gset string :=
    list_to_set ((λ p, Py.first_part (Py.split "/" p)) <$> elements paths) in
  let dirs : gset string := list_to_set (path <$> filter (λ it, is_tree it) tree) in
  (x = Seer.src_layout ∧ existsb (Py.startswith "src/") (elements paths) = true)
  ∨ (x = Seer.monorepo
     ∧ bool_decide ("packages" ∈ tops) || bool_decide ("apps" ∈ tops) = true)
  ∨ (x = Seer.django ∧ existsb (Py.endswith "manage.py") (elements paths) = true)
  ∨ (x = Seer.dockerized
     ∧ existsb (λ p, Py.endswith "docker-compose.yml" p || Py.endswith "Dockerfile" p)
         (elements paths) = true)
  ∨ (x = Seer.ci_cd ∧ bool_decide (".github/workflows" ∈ dirs) = true).
Proof.
  unfold Seer.analyze_project_structure. rewrite !elem_of_append_if. cbv zeta. split.
  - intros [[[[[H|[Hc ->]]|[Hc ->]]|[Hc ->]]|[Hc ->]]|[Hc ->]].
    + by apply elem_of_nil in H.
    + left. split; [reflexivity|exact Hc].
    + right. left. split; [reflexivity|exact Hc].
    + do 2 right. left. split; [reflexivity|exact Hc].
    + do 3 right. left. split; [reflexivity|exact Hc].
    + do 4 right. split; [reflexivity|exact Hc].
  - intros [[-> Hc]|[[-> Hc]|[[-> Hc]|[[-> Hc]|[-> Hc]]]]].
    + do 4 left. right. split; [exact Hc|reflexivity].
    + do 3 left. right. split; [exact Hc|reflexivity].
    + do 2 left. right. split; [exact Hc|reflexivity].
    + left. right. split; [exact Hc|reflexivity].
    + right. split; [exact Hc|reflexivity].
Qed.

(** X3. The source-layout finding is emitted exactly when the path of some
    file starts with "src/": a directory entry "src" alone, or a "src/"
    further down a path, does not count. *)
Theorem X3_src_layout (tree : list item) :
  Seer.src_layout ∈ Seer.analyze_project_structure tree
  ↔ ∃ it rest, it ∈ tree ∧ type it = "blob" ∧ path it = "src/" +:+ rest.
Proof.
  rewrite in_structures. cbv zeta. split.
  - intros [[_ H]|[[? _]|[[? _]|[[? _]|[? _]]]]]; try done.
    apply any_blob_path in H as (it & Hit & Hb & Hs).
    apply startswith_spec in Hs as [rest Hs]. by exists it, rest.
  - intros (it & rest & Hit & Hb & Hs). left. split; [done|].
    apply any_blob_path. exists it. split; [done|]. split; [done|].
    apply startswith_spec. by exists rest.
Qed.

(** X4. The monorepo finding is emitted exactly when the first segment of
    the path of some file is "packages" or "apps": a file under such a
    top-level directory, or a top-level file of that very name; a directory
    entry alone does not count. *)
Theorem X4_monorepo (tree : list item) :
  Seer.monorepo ∈ Seer.analyze_project_structure tree
  ↔ ∃ it top, it ∈ tree ∧ type it = "blob" ∧ (top = "packages" ∨ top = "apps")
       ∧ (path it = top ∨ ∃ rest, path it = top +:+ "/" +:+ rest).
Proof.
  rewrite in_structures. cbv zeta. split.
  - intros [[? _]|[[_ H]|[[? _]|[[? _]|[? _]]]]]; try done.
    apply orb_true_iff in H as [H|H]; apply bool_decide_eq_true, top_of_blob in H
      as (it & Hit & Hb & Htop); apply first_part_spec in Htop; try done.
    + exists it, "packages". eauto.
    + exists it, "apps". eauto.
  - intros (it & top & Hit & Hb & Htop & Hpath). right. left. split; [done|].
    apply orb_true_iff.
    destruct Htop as [-> | ->]; [left|right]; apply bool_decide_eq_true, top_of_blob;
      exists it; (split; [done|]); (split; [done|]); by apply first_part_spec.
Qed.

(** X5. The Django finding is emitted exactly when the path of some file
    ends with "manage.py", at any depth and whatever comes before in the
    name. *)
Theorem X5_django (tree : list item) :
  Seer.django ∈ Seer.analyze_project_structure tree
  ↔ ∃ it prefix, it ∈ tree ∧ type it = "blob" ∧ path it = prefix +:+ "manage.py".
Proof.
  rewrite in_structures. cbv zeta. split.
  - intros [[? _]|[[? _]|[[_ H]|[[? _]|[? _]]]]]; try done.
    apply any_blob_path in H as (it & Hit & Hb & Hs).
    apply endswith_spec in Hs as [prefix Hs]. by exists it, prefix.
  - intros (it & prefix & Hit & Hb & Hs). do 2 right. left. split; [done|].
    apply any_blob_path. exists it. split; [done|]. split; [done|].
    apply endswith_spec. by exists prefix.
Qed.

(** X6. The CI finding is emitted exactly when the listing has an entry of
    type "tree" whose path is ".github/workflows": files under that
    directory do not trigger it. *)
Theorem X6_ci_cd (tree : list item) :
  Seer.ci_cd ∈ Seer.analyze_project_structure tree
  ↔ ∃ it, it ∈ tree ∧ type it = "tree" ∧ path it = ".github/workflows".
Proof.
  rewrite in_structures. cbv zeta. split.
  - intros [[? _]|[[? _]|[[? _]|[[? _]|[_ H]]]]]; try done.
    apply bool_decide_eq_true, elem_of_list_to_set, list_elem_of_fmap in H
      as (it & Hpath & Hit).
    apply list_elem_of_filter in Hit as [Ht Hit].
    exists it. split; [done|]. split; [|done].
    apply Is_true_true in Ht. by apply String.eqb_eq in Ht.
  - intros (it & Hit & Ht & Hpath). do 4 right. split; [done|].
    apply bool_decide_eq_true, elem_of_list_to_set, list_elem_of_fmap.
    exists it. split; [done|]. apply list_elem_of_filter. split; [|done].
    apply Is_true_true. by apply String.eqb_eq.
Qed.

(** *** The dictionary of the histogram *)

Lemma dict_set_keys {V} (d : list (string * V)) k v :
  (Py.dict_set d k v).*1 = if decide (k ∈ d.*1) then d.*1 else d.*1 ++ [k].
Proof.
  induction d as [|[k0 v0] d IH]; [done|].
  change ((k0, v0) :: d).*1 with (k0 :: d.*1). cbn [Py.dict_set].
  destruct (String.eqb_spec k0 k) as [->|Hk].
  - by rewrite decide_True by apply list_elem_of_here.
  - change ((k0, v0) :: Py.dict_set d k v).*1 with (k0 :: (Py.dict_set d k v).*1).
    rewrite IH. destruct (decide (k ∈ d.*1)) as [Hin|Hin].
    + by rewrite decide_True by (by apply list_elem_of_further).
    + rewrite decide_False; [done|]. intros Hin'.
      apply elem_of_cons in Hin' as [->|?]; done.
Qed.

Lemma dict_set_nodup {V} (d : list (string * V)) k v :
  NoDup d.*1 → NoDup (Py.dict_set d k v).*1.
Proof.
  intros Hnd. rewrite dict_set_keys. destruct (decide (k ∈ d.*1)); [done|].
  apply NoDup_app. split; [done|]. split; [|apply NoDup_singleton].
  intros x Hx Hx'. apply list_elem_of_singleton in Hx'. by subst.
Qed.

Lemma dict_get_elem {V} (d : list (string * V)) k v :
  NoDup d.*1 → (k, v) ∈ d ↔ Py.dict_get d k = Some v.
Proof.
  induction d as [|[k0 v0] d IH]; simpl; intros Hnd.
  - split; [by intros ?%elem_of_nil|done].
  - apply NoDup_cons in Hnd as [Hk0 Hnd]. rewrite elem_of_cons.
    destruct (String.eqb_spec k0 k) as [->|Hk].
    + split.
      * intros [[= ->]|Hin]; [done|]. exfalso. apply Hk0.
        apply list_elem_of_fmap. by exists (k, v).
      * intros [= ->]. by left.
    + rewrite <- (IH Hnd). split; [|by right]. by intros [[= ? ?]|?].
Qed.

Lemma dict_set_sum_any (d : list (string * nat)) k v :
  sum_list (Py.dict_set d k v).*2 + default 0 (Py.dict_get d k) = sum_list d.*2 + v.
Proof.
  induction d as [|[k0 v0] d IH]; simpl; [lia|].
  destruct (String.eqb_spec k0 k) as [->|Hk]; simpl in *; unfold fmap in *; lia.
Qed.

Lemma dict_set_sum (d : list (string * nat)) k :
  sum_list (Py.dict_set d k (default 0 (Py.dict_get d k) + 1)).*2 = S (sum_list d.*2).
Proof.
  pose proof (dict_set_sum_any d k (default 0 (Py.dict_get d k) + 1)). lia.
Qed.

Lemma analyze_languages_nodup counts tree :
  NoDup counts.*1 → NoDup (foldl Seer.count_language counts tree).*1.
Proof.
  revert counts. induction tree as [|it tree IH]; intros counts Hnd; simpl; [done|].
  apply IH. rewrite count_language_spec.
  destruct (if is_blob it then _ else _); [by apply dict_set_nodup|done].
Qed.

Lemma recognized_language it :
  recognized it
  ↔ is_Some (if is_blob it then name_language (Seer.basename (path it)) else None).
Proof.
  unfold recognized. rewrite <- is_blob_true.
  destruct (is_blob it); split; try done; by intros [? ?].
Qed.

Lemma analyze_languages_sum counts tree :
  sum_list (foldl Seer.count_language counts tree).*2
  = sum_list counts.*2 + List.length (filter recognized tree).
Proof.
  revert counts. induction tree as [|it tree IH]; intros counts; simpl; [lia|].
  rewrite IH, count_language_spec, filter_cons.
  destruct (decide (recognized it)) as [Hit|Hit]; rewrite recognized_language in Hit.
  - destruct Hit as [lang Hlang]. rewrite Hlang, dict_set_sum. simpl. lia.
  - destruct (if is_blob it then _ else _) as [lang|]; [|done].
    exfalso. apply Hit. eauto.
Qed.

(** X7. The histogram holds each language once, and what it holds for a
    language is the number of files counted as that language, which is never
    zero: a language without files is absent rather than present with 0. *)
Theorem X7_histogram_entries (tree : list item) :
  NoDup (Seer.analyze_languages tree).*1
  ∧ ∀ lang n, (lang, n) ∈ Seer.analyze_languages tree
              ↔ n = List.length (filter (counted_as lang) tree) ∧ 0 < n.
Proof.
  assert (NoDup (Seer.analyze_languages tree).*1) as Hnd.
  { apply analyze_languages_nodup. constructor. }
  split; [done|]. intros lang n. rewrite (dict_get_elem _ _ _ Hnd).
  unfold Seer.analyze_languages. rewrite analyze_languages_from. simpl.
  destruct (List.length (filter (counted_as lang) tree)) as [|m].
  - split; [done|]. intros [-> ?]. lia.
  - split; [intros [= <-]; split; [done|lia]|]. by intros [-> _].
Qed.

(** X8. The counters of the histogram add up to the number of files whose
    name has a language of the table: every such file is counted once, under
    one language, and nothing else is counted. *)
Theorem X8_histogram_total (tree : list item) :
  sum_list (Seer.analyze_languages tree).*2 = List.length (filter recognized tree)
  ∧ sum_list (Seer.analyze_languages tree).*2 ≤ List.length tree.
Proof.
  unfold Seer.analyze_languages. rewrite analyze_languages_sum. simpl.
  split; [done|]. apply length_filter.
Qed.

(** X9. The dependency detector depends on the listing only through the set
    of the last segments of its paths: two listings in which the same names
    occur, in whatever order, directories and number, give the same result. *)
Theorem X9_dependencies_by_names (tree tree' : list item) :
  (∀ name, (∃ it, it ∈ tree ∧ Seer.basename (path it) = name)
           ↔ (∃ it, it ∈ tree' ∧ Seer.basename (path it) = name)) →
  Seer.analyze_dependencies tree = Seer.analyze_dependencies tree'.
Proof.
  intros Hnames. unfold Seer.analyze_dependencies. f_equal. f_equal.
  apply set_eq. intros x. rewrite !elem_of_list_to_set, !list_elem_of_fmap.
  assert (∀ t : list item, (∃ it, x = Seer.basename (path it)
                      ∧ it ∈ filter (λ it, bool_decide (Seer.basename (path it) ∈ Seer.dep_files)) t)
               ↔ x ∈ Seer.dep_files ∧ ∃ it, it ∈ t ∧ Seer.basename (path it) = x) as Hchar.
  { intros t. split.
    - intros (it & -> & Hit). apply list_elem_of_filter in Hit as [Hin Hit].
      apply bool_decide_unpack in Hin. eauto.
    - intros (Hx & it & Hit & <-). exists it. split; [done|].
      apply list_elem_of_filter. split; [|done]. by apply bool_decide_pack. }
  rewrite !Hchar. by rewrite (Hnames x).
Qed.

Lemma X9_dependencies_by_names_witness :
  Seer.analyze_dependencies listing_deps_1 = Seer.analyze_dependencies listing_deps_2.
Proof.
  apply X9_dependencies_by_names. intros name. unfold listing_deps_1, listing_deps_2. split.
  - intros (it & Hit & <-).
    apply elem_of_cons in Hit as [->|Hit]; [|apply list_elem_of_singleton in Hit as ->].
    + exists (Item "pom.xml" "blob"). split; [|reflexivity].
      do 2 apply list_elem_of_further. apply list_elem_of_here.
    + exists (Item "go.mod" "blob"). split; [|reflexivity]. apply list_elem_of_here.
  - intros (it & Hit & <-).
    apply elem_of_cons in Hit as [->|Hit];
      [|apply elem_of_cons in Hit as [->|Hit]; [|apply list_elem_of_singleton in Hit as ->]].
    + exists (Item "go.mod" "blob"). split; [|reflexivity].
      apply list_elem_of_further, list_elem_of_here.
    + exists (Item "a/pom.xml" "blob"). split; [|reflexivity]. apply list_elem_of_here.
    + exists (Item "a/pom.xml" "blob"). split; [|reflexivity]. apply list_elem_of_here.
Defined.

(** ** Further properties of the network client *)

(** X10. The metadata fetch is one request and no more, whatever the answer
    (no retry, no fallback, not even on a status failure), it prints nothing,
    and it returns an object exactly when the answer has a status that is no
    failure and a body that is one. *)
Theorem X10_metadata_single_request
    (server : list string → string → Seer.response) (owner name : string) (w : Seer.world) :
  (Seer.get_repo_metadata server owner name w).2 = sent (metadata_url owner name) w
  ∧ ∀ d, (Seer.get_repo_metadata server owner name w).1 = Some d
         ↔ answers (server (Seer.requests w) (metadata_url owner name)) d.
Proof.
  unfold Seer.get_repo_metadata, mbind, Seer.M_bind. rewrite get_json_run.
  fold (metadata_url owner name). unfold answers.
  destruct (server _ _) as [|status [d0|]] eqn:Hs.
  - split; [done|]. intros d. split; [done|]. by intros (? & ? & _).
  - destruct (Seer.raise_for_status status) eqn:Hst; (split; [done|]); intros d; simpl.
    + apply raise_for_status_true in Hst. split; [done|].
      intros (st & [= -> ->] & Hno). done.
    + split.
      * intros [= ->]. exists status. split; [done|]. intros Hf.
        apply raise_for_status_true in Hf. congruence.
      * by intros (st & [= -> ->] & _).
  - destruct (Seer.raise_for_status status); (split; [done|]); intros d; simpl;
      (split; [done|]); by intros (st & [= ] & _).
Qed.

(** The listing of a final attempt is the one of the answer it got. *)
Lemma listing_of_answers r listing :
  listing_of r = Some listing ↔ ∃ d, answers r d ∧ Seer.data_tree d = Some listing.
Proof.
  split.
  - destruct r as [|status [d|]]; simpl; try done.
    destruct (Seer.raise_for_status status) eqn:Hst; [done|]. intros Hd.
    exists d. split; [|done]. exists status. split; [done|].
    intros Hf. apply raise_for_status_true in Hf. congruence.
  - intros (d & (status & -> & Hno) & Hd). simpl.
    destruct (Seer.raise_for_status status) eqn:Hst; [|done].
    by apply raise_for_status_true in Hst.
Qed.

(** X12. A listing fetch returns what the server answered to the last
    request of the run, and nothing else. Either it sends the one request for
    the branch, on top of the log it found, and returns a listing exactly
    when the answer to that request is a success whose object has it under
    'tree'; or the branch is "main", the answer to that request is an HTTP
    failure, a second request follows for "master", and it returns a listing
    exactly when the answer to this second request, made with the first in
    the log, is a success whose object has it under 'tree'. *)
Theorem X12_listing_provenance
    (server : list string → string → Seer.response)
    (owner name branch : string) (w : Seer.world) :
  (Seer.requests (Seer.get_repo_tree server owner name branch w).2
     = Seer.requests w ++ [Seer.tree_url owner name branch]
   ∧ ∀ listing,
       (Seer.get_repo_tree server owner name branch w).1 = Some listing
       ↔ ∃ d, answers (server (Seer.requests w) (Seer.tree_url owner name branch)) d
              ∧ Seer.data_tree d = Some listing)
  ∨ (branch = "main"
     ∧ http_failure (server (Seer.requests w) (Seer.tree_url owner name "main"))
     ∧ Seer.requests (Seer.get_repo_tree server owner name branch w).2
       = Seer.requests w ++ [Seer.tree_url owner name "main"; Seer.tree_url owner name "master"]
     ∧ ∀ listing,
         (Seer.get_repo_tree server owner name branch w).1 = Some listing
         ↔ ∃ d, answers (server (Seer.requests w ++ [Seer.tree_url owner name "main"])
                           (Seer.tree_url owner name "master")) d
                ∧ Seer.data_tree d = Some listing).
Proof.
  destruct (decide (branch = "main")) as [->|Hb].
  - rewrite get_repo_tree_main.
    destruct (server _ _) as [|status body] eqn:Hs.
    + left. split; [done|]. intros listing. rewrite <- listing_of_answers. done.
    + destruct (Seer.raise_for_status status) eqn:Hst.
      * right. rewrite get_repo_tree_final by done. cbn [fst snd sent Seer.requests].
        split; [done|]. split.
        { exists status, body. split; [done|]. by apply raise_for_status_true. }
        split; [by rewrite <- app_assoc|].
        intros listing. apply listing_of_answers.
      * left. split; [done|]. intros listing. cbn [fst]. apply listing_of_answers.
  - left. rewrite get_repo_tree_final by done. split; [done|].
    intros listing. apply listing_of_answers.
Qed.

(** ** Further properties of the command-line entry point *)

(** [main] on a well-formed argument: the two fetches, one after the other,
    then the failure messages or the report. *)
Lemma main_cases server lower repo owner name w :
  Py.split "/" repo = [owner; name] →
  let w1 :=
    Seer.World (Seer.requests w ++ [metadata_url owner name])
      (((Seer.console w
           ++ [Seer.Status ("[bold yellow]🔮 Peering into the digital soul of " +:+ repo +:+ "...[/]")])
          ++ [Seer.StatusUpdate "Fetching repository metadata..."])
         ++ [Seer.StatusUpdate "Fetching file structure (this is the magic part)..."]) in
  let metadata := metadata_fetched server owner name (Seer.requests w) in
  let fetch := Seer.get_repo_tree server owner name "main" w1 in
  Seer.main server lower repo w
  = if negb (Seer.bool_dict metadata) || negb (Seer.bool_list fetch.1)
    then (1%Z,
          Seer.World (Seer.requests fetch.2)
            (((Seer.console fetch.2
                 ++ [Seer.Print ("❌ [bold red]Fatal Error:[/bold red] Could not retrieve data for [cyan]" +:+ repo +:+ "[/cyan].")])
                ++ [Seer.Print "   - Check if the repository is public and the name is correct."])
               ++ [Seer.Print "   - The default branch might not be 'main' or 'master'."]))
    else Seer.report lower repo (default (Seer.Data None []) metadata)
           (default [] fetch.1) fetch.2.
Proof.
  intros Hs w1 metadata fetch. unfold Seer.main. rewrite Hs.
  unfold mbind, Seer.M_bind, Seer.emit at 1 2 3. cbn [Seer.requests Seer.console].
  rewrite get_repo_metadata_run. cbn [sent Seer.requests Seer.console].
  fold metadata. fold w1. fold fetch. destruct fetch as [file_tree w2]. cbn [fst snd].
  by destruct (negb (Seer.bool_dict metadata) || negb (Seer.bool_list file_tree)).
Qed.

Lemma report_world lower repo metadata file_tree w :
  ∃ text title rows,
    (Seer.report lower repo metadata file_tree w).2
    = Seer.World (Seer.requests w)
        (Seer.console w ++ [Seer.StatusUpdate "Analyzing codebase from afar..."; Seer.Print "";
                            Seer.PrintPanel text title "green"; Seer.PrintTable rows])
    ∧ sublist rows.*1 report_headers
    ∧ last rows.*1 = Some "🚩 Red Flags".
Proof.
  unfold Seer.report, mbind, Seer.M_bind, Seer.emit, mret, Seer.M_ret.
  cbn [fst snd Seer.requests Seer.console].
  do 3 eexists. split; [by rewrite <- !app_assoc|].
  unfold report_headers, Seer.add_row.
  destruct (Seer.analyze_languages file_tree), (Seer.analyze_project_structure file_tree),
    (Seer.analyze_dependencies file_tree), (Seer.analyze_code_smells lower file_tree);
    (split; [simpl; repeat first [apply sublist_nil | apply sublist_skip | apply sublist_cons]
            |reflexivity]).
Qed.

(** X13. On a well-formed argument [main] always sends the metadata request
    first and the request for the listing of "main" second, and at most one
    more after these: the listing is asked for even when the metadata could
    not be had. *)
Theorem X13_both_fetches
    (server : list string → string → Seer.response) (lower : string → string)
    (repo : string) (w : Seer.world) :
  count_char "/" repo = 1 →
  ∃ owner name rest,
    repo = owner +:+ "/" +:+ name
    ∧ Seer.requests (Seer.main server lower repo w).2
      = Seer.requests w ++ metadata_url owner name :: Seer.tree_url owner name "main" :: rest
    ∧ (rest = [] ∨ rest = [Seer.tree_url owner name "master"]).
Proof.
  intros Hc. apply split_two in Hc as (owner & name & Hs).
  exists owner, name.
  pose proof (join_split "/" repo) as Hrepo. rewrite Hs in Hrepo.
  rewrite (main_cases server lower repo owner name w Hs). cbv zeta.
  set (w1 := Seer.World _ _).
  assert (∃ rest, Seer.requests (Seer.get_repo_tree server owner name "main" w1).2
                  = Seer.requests w1 ++ Seer.tree_url owner name "main" :: rest
                  ∧ (rest = [] ∨ rest = [Seer.tree_url owner name "master"])) as (rest & Hr & Hrest).
  { rewrite get_repo_tree_main.
    destruct (server _ _) as [|status body]; [exists []; split; [done|by left]|].
    destruct (Seer.raise_for_status status); [|exists []; split; [done|by left]].
    rewrite get_repo_tree_final by done. exists [Seer.tree_url owner name "master"].
    split; [|by right]. simpl. by rewrite <- app_assoc. }
  exists rest. split; [done|]. split; [|done].
  assert (Seer.requests w1 = Seer.requests w ++ [metadata_url owner name]) as Hw1 by done.
  rewrite Hw1, <- app_assoc in Hr. simpl in Hr.
  destruct (negb _ || negb _); [done|].
  destruct (report_world lower repo
              (default (Seer.Data None []) (metadata_fetched server owner name (Seer.requests w)))
              (default [] (Seer.get_repo_tree server owner name "main" w1).1)
              (Seer.get_repo_tree server owner name "main" w1).2)
    as (text & title & rows & -> & _).
  done.
Qed.

Lemma X13_both_fetches_witness :
  ∃ owner name rest,
    "o/n" = owner +:+ "/" +:+ name
    ∧ Seer.requests (Seer.main server_master_only ascii_lower "o/n" (Seer.World [] [])).2
      = [] ++ metadata_url owner name :: Seer.tree_url owner name "main" :: rest
    ∧ (rest = [] ∨ rest = [Seer.tree_url owner name "master"]).
Proof.
  apply (X13_both_fetches server_master_only ascii_lower "o/n" (Seer.World [] [])).
  reflexivity.
Defined.

(** X14. No partial report: when [main] exits with code 1, what it has added
    to the console holds neither the panel nor the table. *)
Theorem X14_no_partial_report
    (server : list string → string → Seer.response) (lower : string → string)
    (repo : string) (w : Seer.world) :
  (Seer.main server lower repo w).1 = 1%Z →
  ∃ added,
    Seer.console (Seer.main server lower repo w).2 = Seer.console w ++ added
    ∧ Forall (λ o, ¬ is_report_output o) added.
Proof.
  destruct (decide (count_char "/" repo = 1)) as [Hc|Hc].
  - apply split_two in Hc as (owner & name & Hs).
    rewrite (main_cases server lower repo owner name w Hs). cbv zeta.
    set (w1 := Seer.World _ _).
    destruct (get_repo_tree_run server owner name w1) as [rest Hrun].
    rewrite Hrun. cbn [fst snd].
    destruct (negb _ || negb _).
    + intros _. eexists. split.
      * cbn [Seer.console w1]. rewrite <- !app_assoc. reflexivity.
      * repeat constructor; by intros [].
    + intros Hexit. by rewrite (proj1 (report_run _ _ _ _ _)) in Hexit.
  - rewrite main_malformed by done. intros _. eexists. split; [reflexivity|].
    repeat constructor. by intros [].
Qed.

Lemma X14_no_partial_report_witness :
  ∃ added,
    Seer.console (Seer.main server_empty_listing ascii_lower "o/n" (Seer.World [] [])).2
    = [] ++ added
    ∧ Forall (λ o, ¬ is_report_output o) added.
Proof.
  apply (X14_no_partial_report server_empty_listing ascii_lower "o/n" (Seer.World [] [])).
  reflexivity.
Defined.

(** X15. When [main] exits with code 0, what it has added to the console
    is the status line, the three updates of it, an empty line, the panel
    with a green border and the table, in this order and nothing else; the
    rows of the table come in the order languages, architecture,
    dependencies, red flags, each at most once, and the last row is always
    the one of the red flags, which is printed whether or not anything was
    found. *)
Theorem X15_report_rows
    (server : list string → string → Seer.response) (lower : string → string)
    (repo : string) (w : Seer.world) :
  (Seer.main server lower repo w).1 = 0%Z →
  ∃ text title rows,
    Seer.console (Seer.main server lower repo w).2
    = Seer.console w
      ++ [Seer.Status ("[bold yellow]🔮 Peering into the digital soul of " +:+ repo +:+ "...[/]");
          Seer.StatusUpdate "Fetching repository metadata...";
          Seer.StatusUpdate "Fetching file structure (this is the magic part)...";
          Seer.StatusUpdate "Analyzing codebase from afar..."; Seer.Print "";
          Seer.PrintPanel text title "green"; Seer.PrintTable rows]
    ∧ sublist rows.*1 report_headers
    ∧ last rows.*1 = Some "🚩 Red Flags".
Proof.
  destruct (decide (count_char "/" repo = 1)) as [Hc|Hc].
  - apply split_two in Hc as (owner & name & Hs).
    rewrite (main_cases server lower repo owner name w Hs). cbv zeta.
    set (w1 := Seer.World _ _).
    destruct (get_repo_tree_run server owner name w1) as [rest Hrun].
    rewrite Hrun. cbn [fst snd].
    destruct (negb _ || negb _); [done|]. intros _.
    match goal with |- context [Seer.report lower repo ?m ?t ?w2] =>
      destruct (report_world lower repo m t w2) as (text & title & rows & -> & Hrows)
    end.
    exists text, title, rows. split; [|exact Hrows].
    cbn [Seer.console w1]. by rewrite <- !app_assoc.
  - rewrite main_malformed by done. done.
Qed.

Lemma X15_report_rows_witness :
  ∃ text title rows,
    Seer.console (Seer.main server_one_file ascii_lower "o/n" (Seer.World [] [])).2
    = []
      ++ [Seer.Status "[bold yellow]🔮 Peering into the digital soul of o/n...[/]";
          Seer.StatusUpdate "Fetching repository metadata...";
          Seer.StatusUpdate "Fetching file structure (this is the magic part)...";
          Seer.StatusUpdate "Analyzing codebase from afar..."; Seer.Print "";
          Seer.PrintPanel text title "green"; Seer.PrintTable rows]
    ∧ sublist rows.*1 report_headers
    ∧ last rows.*1 = Some "🚩 Red Flags".
Proof.
  apply (X15_report_rows server_one_file ascii_lower "o/n" (Seer.World [] [])).
  reflexivity.
Defined.

(** ** Further properties of the tree of the explorer *)

Lemma child_of_add_iff q lbl d a tree p n :
  q < List.length tree →
  (∀ p n, child_of tree p n → n < List.length tree) →
  child_of (SeerTui.add q lbl d a tree).2 p n
  ↔ child_of tree p n ∨ (p = q ∧ n = List.length tree).
Proof.
  intros Hq Hvalid. split.
  - intros (pn' & Hpn' & Hn).
    apply add_lookup_inv in Hpn' as [[-> ->]|[Hlt Hpn']]; [by apply elem_of_nil in Hn|].
    apply add_lookup_old_inv in Hpn' as (pn & Hpn & _ & Hch); [|lia].
    rewrite Hch in Hn. destruct (decide (p = q)) as [->|Hp].
    + apply elem_of_app in Hn as [Hn|Hn].
      * left. by exists pn.
      * apply list_elem_of_singleton in Hn. by right.
    + left. by exists pn.
  - intros [Hold|[-> ->]]; [by apply child_of_add|].
    destruct (lookup_lt_is_Some_2 tree q Hq) as [qn Hqn].
    destruct (add_lookup_old_some q lbl d a tree q qn Hqn) as (qn' & Hqn' & _ & Hch).
    exists qn'. split; [done|]. rewrite Hch, decide_True by done.
    apply elem_of_app. right. apply list_elem_of_here.
Qed.

Lemma shape_add q lbl d a tree :
  shape_inv tree → q < List.length tree → shape_inv (SeerTui.add q lbl d a tree).2.
Proof.
  intros Hshape Hq.
  assert (∀ p n, child_of tree p n → n < List.length tree) as Hvalid.
  { intros p n Hc. by apply (shape_lt _ Hshape) in Hc as [_ ?]. }
  assert (∀ p n, child_of (SeerTui.add q lbl d a tree).2 p n
                 ↔ child_of tree p n ∨ (p = q ∧ n = List.length tree)) as Hiff.
  { intros p n. by apply child_of_add_iff. }
  split.
  - intros p n Hc. rewrite add_length. apply Hiff in Hc as [Hc|[-> ->]].
    + apply (shape_lt _ Hshape) in Hc. lia.
    + lia.
  - intros p p' n Hc Hc'. apply Hiff in Hc as [Hc|[-> ->]]; apply Hiff in Hc' as [Hc'|[-> Hn]].
    + by apply (shape_unique _ Hshape p p' n).
    + subst. apply Hvalid in Hc. lia.
    + apply Hvalid in Hc'. lia.
    + done.
  - intros n nd' Hnd'.
    apply add_lookup_inv in Hnd' as [[-> ->]|[Hlt Hnd']]; [constructor|].
    apply add_lookup_old_inv in Hnd' as (nd & Hnd & _ & ->); [|lia].
    pose proof (shape_nodup _ Hshape n nd Hnd) as Hnodup.
    destruct (decide (n = q)) as [->|_]; [|done].
    apply NoDup_app. split; [done|]. split; [|apply NoDup_singleton].
    intros c Hc Hc'. apply list_elem_of_singleton in Hc' as ->.
    assert (child_of tree q (List.length tree)) as Hchild by (by exists nd).
    apply Hvalid in Hchild. lia.
  - intros n Hn. rewrite add_length in Hn.
    destruct (decide (n = List.length tree)) as [->|Hne].
    + exists q. apply Hiff. by right.
    + destruct (shape_parent _ Hshape n) as [p Hp]; [lia|].
      exists p. by apply child_of_add.
Qed.

Lemma foldl_place_shape placed nodes tree rest :
  placed_inv placed nodes tree → shape_inv tree →
  shape_inv (foldl SeerTui.place (nodes, tree) rest).2.
Proof.
  revert placed nodes tree. induction rest as [|it rest IH]; intros placed nodes tree Hinv Hs;
    [done|].
  change (foldl SeerTui.place (nodes, tree) (it :: rest))
    with (foldl SeerTui.place (SeerTui.place (nodes, tree) it) rest).
  pose proof (place_inv placed nodes tree it Hinv) as Hinv'.
  assert (shape_inv (SeerTui.place (nodes, tree) it).2) as Hs'.
  { rewrite place_spec. cbn [fst snd]. apply shape_add; [done|].
    destruct (parent_node_valid placed nodes tree (Py.rpartition "/" (path it)).1.1 Hinv)
      as (qn & Hqn & _).
    by apply lookup_lt_Some in Hqn. }
  destruct (SeerTui.place (nodes, tree) it) as [nodes' tree'].
  by apply (IH (placed ++ [it])).
Qed.

Lemma initial_shape lbl : shape_inv [SeerTui.Node lbl None true false []].
Proof.
  assert (∀ p n, ¬ child_of [SeerTui.Node lbl None true false []] p n) as Hno.
  { intros [|p] n (pn & Hpn & Hn); [|done]. injection Hpn as <-. by apply elem_of_nil in Hn. }
  split.
  - intros p n Hc. by apply Hno in Hc.
  - intros p p' n Hc. by apply Hno in Hc.
  - intros [|n] nd Hnd; [|done]. injection Hnd as <-. constructor.
  - simpl. intros n Hn. lia.
Qed.

Lemma expand_lookup tree n nd' :
  SeerTui.expand SeerTui.root tree !! n = Some nd' →
  ∃ nd, tree !! n = Some nd ∧ same_node nd' nd
        ∧ SeerTui.children nd' = SeerTui.children nd.
Proof.
  unfold SeerTui.expand. destruct (decide (n = SeerTui.root)) as [->|Hn].
  - rewrite list_lookup_alter_eq. destruct (tree !! SeerTui.root) as [nd|]; [|done].
    simpl. intros [= <-]. exists nd. by repeat split.
  - rewrite list_lookup_alter_ne by done. intros Hnd. exists nd'. by repeat split.
Qed.

Lemma child_of_expand tree p n :
  child_of (SeerTui.expand SeerTui.root tree) p n ↔ child_of tree p n.
Proof.
  split.
  - apply carries_child_of, carries_expand.
  - apply carries_child_of, expand_carries.
Qed.

Lemma shape_expand tree : shape_inv tree → shape_inv (SeerTui.expand SeerTui.root tree).
Proof.
  intros Hs. assert (List.length (SeerTui.expand SeerTui.root tree) = List.length tree) as Hlen
    by apply length_alter.
  split.
  - intros p n Hc. rewrite Hlen. apply (proj1 (child_of_expand _ _ _)) in Hc. by apply (shape_lt _ Hs).
  - intros p p' n Hc Hc'. apply (proj1 (child_of_expand _ _ _)) in Hc. apply (proj1 (child_of_expand _ _ _)) in Hc'.
    by apply (shape_unique _ Hs p p' n).
  - intros n nd' Hnd'. apply expand_lookup in Hnd' as (nd & Hnd & _ & ->).
    by apply (shape_nodup _ Hs n nd).
  - intros n Hn. rewrite Hlen in Hn. destruct (shape_parent _ Hs n Hn) as [p Hp].
    exists p. by apply (proj2 (child_of_expand _ _ _)).
Qed.

(** X16. Whatever the listing, the widget is a tree: a child is a node made
    after its parent, so that no walk upwards loops and the root has no
    parent; every other node has exactly one parent, and is listed once among
    its children; and a node made by [add_leaf] for a file never gets
    children, even when the listing has paths that run through it. *)
Theorem X16_tree_shape (repo : string) (entries : list item) :
  (∀ p n, child_of (SeerTui.buildTree repo entries) p n
          → p < n < List.length (SeerTui.buildTree repo entries))
  ∧ (∀ n, 0 < n < List.length (SeerTui.buildTree repo entries) →
          ∃ p, child_of (SeerTui.buildTree repo entries) p n
               ∧ ∀ p', child_of (SeerTui.buildTree repo entries) p' n → p' = p)
  ∧ (∀ n nd, SeerTui.buildTree repo entries !! n = Some nd →
             NoDup (SeerTui.children nd)
             ∧ (SeerTui.allow_expand nd = false → SeerTui.children nd = [])).
Proof.
  assert (shape_inv (SeerTui.buildTree repo entries)
          ∧ ∀ n nd, SeerTui.buildTree repo entries !! n = Some nd →
                    SeerTui.allow_expand nd = false → SeerTui.children nd = [])
    as [Hs Hleaf].
  { destruct (decide (entries = [])) as [->|Hne].
    - rewrite buildTree_empty. split; [apply initial_shape|].
      intros [|n] nd Hnd; [|done]. by injection Hnd as <-.
    - rewrite buildTree_loop by done.
      pose proof (foldl_place_inv [] _ _ (Py.sorted path String.leb entries)
                    (initial_inv ("📂 " +:+ repo))) as Hinv.
      split.
      + apply shape_expand. eapply foldl_place_shape; [apply initial_inv|apply initial_shape].
      + intros n nd' Hnd' Ha. apply expand_lookup in Hnd' as (nd & Hnd & (_ & _ & Ha') & ->).
        apply (inv_leaf _ _ _ Hinv n nd Hnd). congruence. }
  split; [exact (shape_lt _ Hs)|]. split.
  - intros n Hn. destruct (shape_parent _ Hs n Hn) as [p Hp]. exists p. split; [done|].
    intros p' Hp'. by apply (shape_unique _ Hs p' p n).
  - intros n nd Hnd. split; [by apply (shape_nodup _ Hs n nd)|by apply (Hleaf n)].
Qed.

Lemma foldl_place_order placed nodes tree rest :
  placed_inv placed nodes tree →
  (∀ k it, placed !! k = Some it → node_of tree (S k) it) →
  ∀ k it, (placed ++ rest) !! k = Some it →
          node_of (foldl SeerTui.place (nodes, tree) rest).2 (S k) it.
Proof.
  revert placed nodes tree. induction rest as [|it rest IH]; intros placed nodes tree Hinv Hord.
  - by rewrite app_nil_r.
  - change (foldl SeerTui.place (nodes, tree) (it :: rest))
      with (foldl SeerTui.place (SeerTui.place (nodes, tree) it) rest).
    replace (placed ++ it :: rest) with ((placed ++ [it]) ++ rest)
      by (by rewrite <- app_assoc).
    pose proof (place_inv placed nodes tree it Hinv) as Hinv'.
    assert (∀ k it', (placed ++ [it]) !! k = Some it' →
              node_of (SeerTui.place (nodes, tree) it).2 (S k) it') as Hord'.
    { intros k it' Hk. rewrite place_spec. cbn [fst snd].
      apply lookup_app_Some in Hk as [Hk|[Hge Hk]].
      - by apply node_of_add, Hord.
      - apply list_lookup_singleton_Some in Hk as [Hk ->].
        pose proof (inv_length _ _ _ Hinv) as Hlen.
        replace (S k) with (List.length tree) by lia.
        eexists. split; [apply add_lookup_new|]. unfold SeerTui.root.
        repeat split; simpl. lia. }
    destruct (SeerTui.place (nodes, tree) it) as [nodes' tree'].
    by apply (IH (placed ++ [it])).
Qed.

(** X17. Nodes are made in the order of the paths: the entries of the
    listing can be put in a sequence, sorted by path, such that node [k + 1]
    of the tree stands for the [k]-th entry of the sequence, node 0 being the
    root. *)
Theorem X17_nodes_in_path_order (repo : string) (entries : list item) :
  ∃ l, l ≡ₚ entries
       ∧ StronglySorted (λ a b, String.leb (path a) (path b) = true) l
       ∧ ∀ k it, l !! k = Some it → node_of (SeerTui.buildTree repo entries) (S k) it.
Proof.
  exists (Py.sorted path String.leb entries).
  split; [apply sorted_perm|].
  split; [apply (sorted_sorted path String.leb String.leb_total leb_trans)|].
  intros k it Hk. destruct (decide (entries = [])) as [->|Hne]; [done|].
  rewrite buildTree_loop by done.
  eapply carries_node_of; [apply expand_carries|].
  by apply (foldl_place_order [] _ _ _ (initial_inv ("📂 " +:+ repo))).
Qed.

Lemma NoDup_fmap_inj {A B} (f : A → B) (l : list A) x y :
  NoDup (f <$> l) → x ∈ l → y ∈ l → f x = f y → x = y.
Proof.
  induction l as [|z l IH]; [by intros _ ?%elem_of_nil|].
  rewrite fmap_cons. intros [Hz Hnd]%NoDup_cons Hx Hy Hf.
  apply elem_of_cons in Hx as [->|Hx]; apply elem_of_cons in Hy as [->|Hy].
  - done.
  - exfalso. apply Hz. rewrite Hf. apply list_elem_of_fmap. by exists y.
  - exfalso. apply Hz. rewrite <- Hf. apply list_elem_of_fmap. by exists x.
  - by apply IH.
Qed.

(** With no path twice, the sorted listing does not depend on the order in
    which the entries came. *)
Lemma sorted_by_path_perm (l1 l2 : list item) :
  NoDup (path <$> l1) → l1 ≡ₚ l2 →
  Py.sorted path String.leb l1 = Py.sorted path String.leb l2.
Proof.
  intros Hnd Hperm.
  apply (StronglySorted_unique_strong (λ a b, String.leb (path a) (path b) = true)).
  - intros x1 x2 Hx1 Hx2 H12 H21.
    rewrite sorted_perm in Hx1. rewrite sorted_perm, <- Hperm in Hx2.
    apply (NoDup_fmap_inj path l1); [done|done|done|].
    by apply String.leb_antisym.
  - apply (sorted_sorted path String.leb String.leb_total leb_trans).
  - apply (sorted_sorted path String.leb String.leb_total leb_trans).
  - by rewrite !sorted_perm.
Qed.

(** X18. The listing is unordered: when no path occurs twice in it, the tree
    does not depend on the order in which the entries are listed. *)
Theorem X18_order_of_listing (repo : string) (entries entries' : list item) :
  NoDup (path <$> entries) → entries ≡ₚ entries' →
  SeerTui.buildTree repo entries = SeerTui.buildTree repo entries'.
Proof.
  intros Hnd Hperm. destruct (decide (entries = [])) as [->|Hne].
  - by apply Permutation_nil_l in Hperm as ->.
  - assert (entries' ≠ []) as Hne'.
    { intros ->. by apply Permutation_nil_r in Hperm. }
    rewrite !buildTree_loop by done. by rewrite (sorted_by_path_perm entries entries').
Qed.

Lemma X18_order_of_listing_witness :
  SeerTui.buildTree "o/n" listing_a_b = SeerTui.buildTree "o/n" listing_b_a.
Proof.
  apply X18_order_of_listing.
  - unfold listing_a_b. simpl. apply NoDup_cons. split.
    + intros Hin. apply list_elem_of_singleton in Hin. done.
    + apply NoDup_singleton.
  - apply Permutation_swap.
Defined.

(** *** Building twice *)

Lemma alter_commute {A} (f g : A → A) (l : list A) i j :
  (∀ x, f (g x) = g (f x)) → alter f i (alter g j l) = alter g j (alter f i l).
Proof.
  intros Hfg. revert i j. induction l as [|x l IH]; intros [|i] [|j]; simpl; try done.
  - by rewrite Hfg.
  - f_equal. apply IH.
Qed.

Lemma add_expand q lbl d a tree :
  tree ≠ [] →
  (SeerTui.add q lbl d a (SeerTui.expand SeerTui.root tree)).2
  = SeerTui.expand SeerTui.root (SeerTui.add q lbl d a tree).2.
Proof.
  intros Hne. unfold SeerTui.add, SeerTui.expand. cbn [snd].
  rewrite length_alter. rewrite alter_app_l.
  - f_equal. by apply alter_commute.
  - rewrite length_alter. unfold SeerTui.root. destruct tree; [done|simpl; lia].
Qed.

Lemma place_expand nodes tree it :
  tree ≠ [] →
  SeerTui.place (nodes, SeerTui.expand SeerTui.root tree) it
  = ((SeerTui.place (nodes, tree) it).1,
     SeerTui.expand SeerTui.root (SeerTui.place (nodes, tree) it).2).
Proof.
  intros Hne. rewrite !place_spec. cbn [fst snd].
  rewrite add_expand by done. unfold SeerTui.expand at 1. by rewrite length_alter.
Qed.

Lemma foldl_place_expand nodes tree l :
  tree ≠ [] →
  foldl SeerTui.place (nodes, SeerTui.expand SeerTui.root tree) l
  = ((foldl SeerTui.place (nodes, tree) l).1,
     SeerTui.expand SeerTui.root (foldl SeerTui.place (nodes, tree) l).2).
Proof.
  revert nodes tree. induction l as [|it l IH]; intros nodes tree Hne; [done|].
  change (foldl SeerTui.place (nodes, SeerTui.expand SeerTui.root tree) (it :: l))
    with (foldl SeerTui.place (SeerTui.place (nodes, SeerTui.expand SeerTui.root tree) it) l).
  change (foldl SeerTui.place (nodes, tree) (it :: l))
    with (foldl SeerTui.place (SeerTui.place (nodes, tree) it) l).
  rewrite place_expand by done.
  assert ((SeerTui.place (nodes, tree) it).2 ≠ []) as Hne'.
  { rewrite place_spec. cbn [snd]. intros Hnil.
    apply (f_equal List.length) in Hnil. rewrite add_length in Hnil. done. }
  destruct (SeerTui.place (nodes, tree) it) as [nodes' tree']. by apply IH.
Qed.

Lemma carries_refl tree : carries tree tree.
Proof. intros n nd Hnd. exists nd. by repeat split. Qed.

Lemma carries_trans t3 t2 t1 : carries t3 t2 → carries t2 t1 → carries t3 t1.
Proof.
  intros H32 H21 n nd Hnd.
  destruct (H21 n nd Hnd) as (nd2 & Hnd2 & (Hl & Hd & Ha) & Hc).
  destruct (H32 n nd2 Hnd2) as (nd3 & Hnd3 & (Hl' & Hd' & Ha') & Hc').
  exists nd3. split; [done|]. split; [repeat split; congruence|]. by etrans.
Qed.

Lemma foldl_place_carries nodes tree l :
  carries (foldl SeerTui.place (nodes, tree) l).2 tree.
Proof.
  revert nodes tree. induction l as [|it l IH]; intros nodes tree; [apply carries_refl|].
  change (foldl SeerTui.place (nodes, tree) (it :: l))
    with (foldl SeerTui.place (SeerTui.place (nodes, tree) it) l).
  pose proof (place_spec nodes tree it) as Hplace.
  destruct (SeerTui.place (nodes, tree) it) as [nodes' tree'].
  eapply carries_trans; [apply IH|]. injection Hplace as _ ->. apply add_carries.
Qed.

(** [populate_tree] when there is a listing and the widget has its root. *)
Lemma populate_tree_some repo e es status sd td tf r rest :
  SeerTui.populate_tree (SeerTui.App repo (Some (e :: es)) status sd td tf (r :: rest))
  = SeerTui.App repo (Some (e :: es)) status false true true
      (SeerTui.expand SeerTui.root
         (foldl SeerTui.place
            ({[ "" := SeerTui.root ]},
             [SeerTui.Node ("📂 " +:+ repo) (SeerTui.data r) true (SeerTui.is_expanded r) []])
            (Py.sorted path String.leb (e :: es))).2).
Proof.
  unfold SeerTui.populate_tree. cbn [SeerTui.file_tree_data SeerTui.dir_tree
    SeerTui.repo_full_name SeerTui.status_line SeerTui.clear].
  change (SeerTui.set_label SeerTui.root ("📂 " +:+ repo)
            [SeerTui.Node (SeerTui.label r) (SeerTui.data r) true (SeerTui.is_expanded r) []])
    with [SeerTui.Node ("📂 " +:+ repo) (SeerTui.data r) true (SeerTui.is_expanded r) []].
  by destruct (foldl _ _ _) as [nodes tree].
Qed.

(** X19. Building is idempotent: calling [populate_tree] again on what it
    left gives the same application, tree and all, provided the widget has
    its root. *)
Theorem X19_populate_idempotent (self : SeerTui.SeerApp) :
  SeerTui.dir_tree self ≠ [] →
  SeerTui.populate_tree (SeerTui.populate_tree self) = SeerTui.populate_tree self.
Proof.
  intros Hroot. destruct self as [repo data status sd td tf tree]. simpl in Hroot.
  destruct data as [[|e es]|]; [done| |done].
  destruct tree as [|r rest]; [done|].
  rewrite (populate_tree_some repo e es status sd td tf r rest).
  set (t0 := [SeerTui.Node ("📂 " +:+ repo) (SeerTui.data r) true (SeerTui.is_expanded r) []]).
  set (sorted_tree := Py.sorted path String.leb (e :: es)).
  pose proof (foldl_place_carries {[ "" := SeerTui.root ]} t0 sorted_tree) as Hcarries.
  assert (t0 ≠ []) as Ht0 by done.
  pose proof (foldl_place_expand {[ "" := SeerTui.root ]} t0 sorted_tree Ht0) as Hexpand.
  destruct (foldl SeerTui.place ({[ "" := SeerTui.root ]}, t0) sorted_tree)
    as [nodes built] eqn:Hfold.
  cbn [fst snd] in *.
  destruct (Hcarries 0 _ eq_refl) as (r' & Hr' & (Hl & Hd & _) & _).
  destruct built as [|r0 built]; [done|]. injection Hr' as ->.
  simpl in Hl, Hd.
  change (SeerTui.expand SeerTui.root (r' :: built))
    with (SeerTui.Node (SeerTui.label r') (SeerTui.data r') (SeerTui.allow_expand r') true
            (SeerTui.children r') :: built) in *.
  rewrite populate_tree_some. cbn [SeerTui.data SeerTui.is_expanded]. rewrite Hd.
  change [SeerTui.Node ("📂 " +:+ repo) (SeerTui.data r) true true []]
    with (SeerTui.expand SeerTui.root t0).
  fold sorted_tree. rewrite Hexpand. cbn [snd]. by rewrite Hd.
Qed.

Lemma X19_populate_idempotent_witness :
  SeerTui.populate_tree (SeerTui.populate_tree app_a_b) = SeerTui.populate_tree app_a_b.
Proof. apply X19_populate_idempotent. discriminate. Defined.

(** ** Further properties of the explorer *)

Lemma load_repo_data_malformed server self w :
  count_char "/" (SeerTui.repo_full_name self) ≠ 1 →
  SeerTui.load_repo_data server self w
  = (SeerTui.App (SeerTui.repo_full_name self) (SeerTui.file_tree_data self)
       "[red]Invalid repo format.[/red]"
       (SeerTui.status_display self) (SeerTui.tree_display self) (SeerTui.tree_focus self)
       (SeerTui.dir_tree self),
     w).
Proof.
  intros Hc. unfold SeerTui.load_repo_data.
  destruct (Py.split "/" (SeerTui.repo_full_name self)) as [|a [|b [|? ?]]] eqn:Hs;
    try reflexivity.
  exfalso. apply Hc. apply split_two. eauto.
Qed.

(** X20. A repository name that does not hold exactly one '/' makes
    [load_repo_data] put "Invalid repo format." on the status line and
    nothing else: no request is sent, the listing, the tree and what is
    displayed stay as they were. *)
Theorem X20_load_malformed
    (server : list string → string → Seer.response)
    (self : SeerTui.SeerApp) (w : Seer.world) :
  count_char "/" (SeerTui.repo_full_name self) ≠ 1 →
  SeerTui.load_repo_data server self w
  = (SeerTui.App (SeerTui.repo_full_name self) (SeerTui.file_tree_data self)
       "[red]Invalid repo format.[/red]"
       (SeerTui.status_display self) (SeerTui.tree_display self) (SeerTui.tree_focus self)
       (SeerTui.dir_tree self),
     w).
Proof. apply load_repo_data_malformed. Qed.

Lemma X20_load_malformed_witness :
  SeerTui.load_repo_data server_master_only (SeerTui.mounted "notarepo") (Seer.World [] [])
  = (SeerTui.App "notarepo" None "[red]Invalid repo format.[/red]" true false false
       (SeerTui.Tree "📂 notarepo"),
     Seer.World [] []).
Proof.
  apply (X20_load_malformed server_master_only (SeerTui.mounted "notarepo") (Seer.World [] [])).
  vm_compute. lia.
Defined.

(** [load_repo_data] on a well-formed name, by what the fetch returns. *)
Lemma load_repo_data_cases server self owner name w :
  Py.split "/" (SeerTui.repo_full_name self) = [owner; name] →
  SeerTui.load_repo_data server self w
  = (match (SeerTui.get_tree server owner name "main" w).1 with
     | Some (e :: es) =>
         SeerTui.populate_tree
           (SeerTui.App (SeerTui.repo_full_name self) (Some (e :: es)) (SeerTui.status_line self)
              (SeerTui.status_display self) (SeerTui.tree_display self)
              (SeerTui.tree_focus self) (SeerTui.dir_tree self))
     | _ =>
         SeerTui.App (SeerTui.repo_full_name self) (SeerTui.file_tree_data self)
           ("[red]Could not load repository: " +:+ SeerTui.repo_full_name self +:+ "[/red]")
           (SeerTui.status_display self) (SeerTui.tree_display self)
           (SeerTui.tree_focus self) (SeerTui.dir_tree self)
     end,
     (SeerTui.get_tree server owner name "main" w).2).
Proof.
  intros Hs. unfold SeerTui.load_repo_data. rewrite Hs. unfold mbind, Seer.M_bind.
  destruct (SeerTui.get_tree server owner name "main" w) as [[[|e es]|] w']; reflexivity.
Qed.

(** X21. Started on the mounted application, [load_repo_data] ends in one of
    two states. The tree is displayed exactly when the name is well formed
    and the fetch returns a listing that is not empty; then the status line
    is hidden, the tree has the focus and is the tree built from that
    listing. Otherwise the tree stays hidden and is the bare root, the status
    line stays displayed and holds one of the two failure messages. *)
Theorem X21_load_outcome
    (server : list string → string → Seer.response) (repo : string) (w : Seer.world) :
  (SeerTui.tree_display (SeerTui.load_repo_data server (SeerTui.mounted repo) w).1 = true
   ↔ ∃ owner name e es,
       Py.split "/" repo = [owner; name]
       ∧ (SeerTui.get_tree server owner name "main" w).1 = Some (e :: es))
  ∧ (∀ owner name e es,
       Py.split "/" repo = [owner; name] →
       (SeerTui.get_tree server owner name "main" w).1 = Some (e :: es) →
       (SeerTui.load_repo_data server (SeerTui.mounted repo) w).1
       = SeerTui.App repo (Some (e :: es)) ("🔮 Fetching data for " +:+ repo +:+ "...")
           false true true (SeerTui.buildTree repo (e :: es)))
  ∧ (SeerTui.tree_display (SeerTui.load_repo_data server (SeerTui.mounted repo) w).1 = false →
     ∃ message,
       (SeerTui.load_repo_data server (SeerTui.mounted repo) w).1
       = SeerTui.App repo None message true false false (SeerTui.Tree ("📂 " +:+ repo))
       ∧ (message = "[red]Invalid repo format.[/red]"
          ∨ message = "[red]Could not load repository: " +:+ repo +:+ "[/red]")).
Proof.
  assert (∀ e es,
            SeerTui.populate_tree
              (SeerTui.App repo (Some (e :: es)) ("🔮 Fetching data for " +:+ repo +:+ "...")
                 true false false (SeerTui.Tree ("📂 " +:+ repo)))
            = SeerTui.App repo (Some (e :: es)) ("🔮 Fetching data for " +:+ repo +:+ "...")
                false true true (SeerTui.buildTree repo (e :: es))) as Hbuild.
  { intros e es. unfold SeerTui.buildTree, SeerTui.mounted, SeerTui.Tree.
    cbn [SeerTui.repo_full_name SeerTui.status_line SeerTui.status_display
         SeerTui.tree_display SeerTui.tree_focus SeerTui.dir_tree].
    by rewrite populate_tree_some. }
  destruct (decide (count_char "/" repo = 1)) as [Hc|Hc].
  - apply split_two in Hc as (owner & name & Hs).
    rewrite (load_repo_data_cases server (SeerTui.mounted repo) owner name w Hs).
    cbn [fst SeerTui.mounted SeerTui.repo_full_name SeerTui.status_line SeerTui.status_display
         SeerTui.tree_display SeerTui.tree_focus SeerTui.dir_tree SeerTui.file_tree_data].
    destruct (SeerTui.get_tree server owner name "main" w).1 as [[|e es]|] eqn:Hfetch.
    + split; [|split].
      * split; [done|]. intros (o & n & e & es & Hs' & Hf). congruence.
      * intros o n e es Hs' Hf. congruence.
      * intros _. eexists. split; [reflexivity|by right].
    + rewrite Hbuild. split; [|split].
      * split; [|done]. intros _. by exists owner, name, e, es.
      * intros o n e' es' Hs' Hf. congruence.
      * done.
    + split; [|split].
      * split; [done|]. intros (o & n & e & es & Hs' & Hf). congruence.
      * intros o n e es Hs' Hf. congruence.
      * intros _. eexists. split; [reflexivity|by right].
  - rewrite load_repo_data_malformed by done. cbn [fst SeerTui.mounted SeerTui.tree_display
      SeerTui.repo_full_name SeerTui.file_tree_data SeerTui.status_display
      SeerTui.tree_focus SeerTui.dir_tree].
    split; [|split].
    + split; [done|]. intros (o & n & e & es & Hs' & _). exfalso. apply Hc, split_two. eauto.
    + intros o n e es Hs' _. exfalso. apply Hc, split_two. eauto.
    + intros _. eexists. split; [reflexivity|by left].
Qed.

(** What a fetch of the listing from "main" leaves in the world. *)
Lemma get_repo_tree_world server owner name w :
  Seer.console (Seer.get_repo_tree server owner name "main" w).2 = Seer.console w
  ∧ (Seer.requests (Seer.get_repo_tree server owner name "main" w).2
       = Seer.requests w ++ [Seer.tree_url owner name "main"]
     ∨ Seer.requests (Seer.get_repo_tree server owner name "main" w).2
       = Seer.requests w ++ [Seer.tree_url owner name "main"; Seer.tree_url owner name "master"]).
Proof.
  rewrite get_repo_tree_main.
  destruct (server _ _) as [|status body] eqn:Hs.
  - split; [done|by left].
  - destruct (Seer.raise_for_status status) eqn:Hst.
    + rewrite get_repo_tree_final by done. simpl. split; [done|].
      right. by rewrite <- app_assoc.
    + split; [done|by left].
Qed.

(** X22. Whatever state it starts from, [load_repo_data] writes nothing on
    the console and sends at most two requests: none for a malformed name,
    otherwise the listing of "main", followed or not by the listing of
    "master". It never asks for the repository's metadata. *)
Theorem X22_explorer_traffic
    (server : list string → string → Seer.response)
    (self : SeerTui.SeerApp) (w : Seer.world) :
  Seer.console (SeerTui.load_repo_data server self w).2 = Seer.console w
  ∧ (Seer.requests (SeerTui.load_repo_data server self w).2 = Seer.requests w
     ∨ ∃ owner name,
         Py.split "/" (SeerTui.repo_full_name self) = [owner; name]
         ∧ (Seer.requests (SeerTui.load_repo_data server self w).2
              = Seer.requests w ++ [Seer.tree_url owner name "main"]
            ∨ Seer.requests (SeerTui.load_repo_data server self w).2
              = Seer.requests w
                ++ [Seer.tree_url owner name "main"; Seer.tree_url owner name "master"])).
Proof.
  destruct (decide (count_char "/" (SeerTui.repo_full_name self) = 1)) as [Hc|Hc].
  - apply split_two in Hc as (owner & name & Hs).
    rewrite (load_repo_data_cases server self owner name w Hs). cbn [snd].
    rewrite get_tree_get_repo_tree.
    destruct (get_repo_tree_world server owner name w) as [Hcon Hreq].
    split; [exact Hcon|]. right. exists owner, name. by split.
  - rewrite load_repo_data_malformed by done. split; [done|by left].
Qed.
